(** * PEDL command line pipeline: extraction ranking, pair generation,
      batched scoring and sharded corpus crawling.

    Shallow embedding of [pedl/cli.py] ([predict], [build_training_set]) and
    of [BertForDistantSupervision.forward_batched].  Scores are modelled as
    rationals: the ranker only compares them ([<], [==]) and sorts them.
    Python sets whose iteration order the interpreter does not fix are
    iterated through an explicit enumeration supplied by the run. *)

From Stdlib Require Import ZArith QArith.
From stdpp Require Import gmap strings list sorting pretty.

Close Scope Q_scope.
Local Open Scope nat_scope.

(** ** Python built-ins used by the command line *)

Module Py.

(** [enumerate(l)], starting at [k]. *)
Fixpoint enumerate_from {A} (k : nat) (l : list A) : list (nat * A) :=
  match l with
  | [] => []
  | x :: t => (k, x) :: enumerate_from (S k) t
  end.

Definition enumerate {A} (l : list A) : list (nat * A) := enumerate_from 0 l.

(** [a % b] on Python integers: floor modulo, [ZeroDivisionError] on [b = 0]. *)
Definition mod_ (a b : Z) : option Z :=
  if (b =? 0)%Z then None else Some (a mod b)%Z.

(** [sorted(l, key=key)] for a key in the naturals: stable. *)
Fixpoint insert_by {A} (key : A → nat) (x : A) (l : list A) : list A :=
  match l with
  | [] => [x]
  | y :: t => if key x <=? key y then x :: y :: t else y :: insert_by key x t
  end.

Definition sorted_by {A} (key : A → nat) (l : list A) : list A :=
  foldr (insert_by key) [] l.

(** [sorted(l)] on strings: code unit order. *)
Fixpoint insert_str (x : string) (l : list string) : list string :=
  match l with
  | [] => [x]
  | y :: t => if String.leb x y then x :: y :: t else y :: insert_str x t
  end.

Definition sorted (l : list string) : list string := foldr insert_str [] l.

(** [sep.join(l)] *)
Definition join (sep : string) (l : list string) : string := String.concat sep l.

Definition TAB : string := String (Ascii.ascii_of_nat 9) "".
Definition LF : string := String (Ascii.ascii_of_nat 10) "".

(** ASCII white space, as removed by [str.strip()]. *)
Definition is_space (c : Ascii.ascii) : bool :=
  let n := Ascii.nat_of_ascii c in
  ((9 <=? n) && (n <=? 13)) || ((28 <=? n) && (n <=? 32)).

Fixpoint lstrip (s : string) : string :=
  match s with
  | String c t => if is_space c then lstrip t else s
  | EmptyString => EmptyString
  end.

Definition strip (s : string) : string :=
  String.rev (lstrip (String.rev (lstrip s))).

(** [s.split(sep)] for a one-character separator. *)
Fixpoint split (sep : Ascii.ascii) (s : string) : list string :=
  match s with
  | EmptyString => [EmptyString]
  | String c t =>
      if Ascii.eqb c sep then EmptyString :: split sep t
      else match split sep t with
           | [] => [String c EmptyString]
           | h :: r => String c h :: r
           end
  end.


Definition is_digit (c : Ascii.ascii) : bool :=
  let n := Ascii.nat_of_ascii c in (48 <=? n) && (n <=? 57).

Fixpoint all_digits (s : string) : bool :=
  match s with
  | EmptyString => true
  | String c t => is_digit c && all_digits t
  end.

(** [s.isnumeric()] on ASCII text: non-empty and digits only. *)
Definition isnumeric (s : string) : bool :=
  match s with
  | EmptyString => false
  | _ => all_digits s
  end.

(** [f"{x:.2f}"]: two decimals, ties to even. *)
Definition round_half_even (q : Q) : Z :=
  let n := (Z.abs (Qnum q) * 100)%Z in
  let d := Zpos (Qden q) in
  let fl := (n / d)%Z in
  match (2 * (n mod d) ?= d)%Z with
  | Lt => fl
  | Gt => (fl + 1)%Z
  | Eq => if Z.even fl then fl else (fl + 1)%Z
  end.

Definition two_digits (n : Z) : string :=
  if (n <? 10)%Z then "0" +:+ pretty n else pretty n.

Definition format_2f (q : Q) : string :=
  let r := round_half_even q in
  (if (Qnum q <? 0)%Z then "-" else "")
    +:+ pretty (r / 100)%Z +:+ "." +:+ two_digits (r mod 100)%Z.

End Py.

(** ** Tensor operations used by the ranker *)

Module Torch.

Definition tensor2 := list (list Q).

Definition Qlt_bool (x y : Q) : bool := negb (Qle_bool y x).

(** [probs.view(-1)] *)
Definition view_flat (probs : tensor2) : list Q := concat probs.

(** [torch.sort(v, descending=True)[0]] *)
Fixpoint insert_desc (x : Q) (l : list Q) : list Q :=
  match l with
  | [] => [x]
  | y :: t => if Qle_bool y x then x :: y :: t else y :: insert_desc x t
  end.

Definition sort_desc (l : list Q) : list Q := foldr insert_desc [] l.

(** [(probs < cutoff).all()] *)
Definition all_lt (probs : tensor2) (cutoff : Q) : bool :=
  forallb (forallb (fun v => Qlt_bool v cutoff)) probs.

(** The index pairs of [torch.where(probs == v)], zipped: the matching cells
    in row-major order. *)
Definition row_hits (v : Q) (i : nat) (row : list (nat * Q)) : list (nat * nat) :=
  flat_map (fun jx => if Qeq_bool (snd jx) v then [(i, fst jx)] else []) row.

Definition where_eq (probs : tensor2) (v : Q) : list (nat * nat) :=
  flat_map (fun ir => row_hits v (fst ir) (Py.enumerate (snd ir))) (Py.enumerate probs).

(** [torch.cat(ts)]: refuses an empty list of tensors. *)
Definition cat {A} (ts : list (list A)) : option (list A) :=
  match ts with
  | [] => None
  | _ => Some (concat ts)
  end.

End Torch.

(** ** ExtractionRanker: the walk over the sorted scores (cli.py, 178-184) *)

Module Ranker.
Import Torch.

(** A visited cell: sentence row, label column, and the walked value. *)
Definition cell := (nat * nat * Q)%type.

(** One iteration of the outer loop for the walked value [m]. *)
Definition walk_step (probs : tensor2) (cutoff : Q) (m : Q) : list cell :=
  if Qlt_bool m cutoff then []
  else map (fun ij => (ij, m)) (where_eq probs m).

(** The sequence of inner-loop bodies executed, in order. *)
Definition walk (probs : tensor2) (cutoff : Q) : list cell :=
  flat_map (walk_step probs cutoff) (sort_desc (view_flat probs)).



(** Number of occurrences of the index pair [ij]. *)
Definition hits (ij : nat * nat) (l : list (nat * nat)) : nat :=
  length (List.filter (fun c => bool_decide (c = ij)) l).


End Ranker.

(** ** Data model *)

Record Sentence := { text : string; text_blinded : string; pmid : string }.

Record Entity := { cuid : string; type : string }.

Global Instance Entity_eq_dec : EqDecision Entity.
Proof. solve_decision. Defined.

Global Instance Entity_countable : Countable Entity.
Proof.
  refine (inj_countable' (fun e => (cuid e, type e))
            (fun p => {| cuid := fst p; type := snd p |}) _).
  by intros [].
Defined.

(** A database statement: its class name and its evidence. *)
Record Evidence := { ev_pmid : string; source_id : string }.
Record Statement := { stmt_class : string; evidence : list Evidence }.

(** ** Effects: exceptions, file system, standard output, external calls *)

Inductive exn :=
| AssertionError (msg : string)
| SystemExit (code : Z)
| ValueError (msg : string)
| FileNotFoundError (path : string)
| IndexError
| ZeroDivisionError
| RuntimeError.

(** Calls that leave the process: model loading, evidence retrieval and
    scoring. *)
Inductive event :=
| EvFromPretrained (model : string)
| EvDataGetter (universe : gset string)
| EvTokenizer (model : string)
| EvMakedirs (path : string)
| EvGetStatements (db p1 p2 : string)
| EvGetSentences (p1 p2 : string)
| EvModel (batch : list string)
| EvGetDocuments (pmids : list string).

(** A file is the list of the strings written to it; its size in bytes is
    the sum of their lengths. [buffers] holds, per open path, what has been
    written but has not reached the file yet. *)
Record world := {
  fs : gmap string (list string);
  buffers : gmap string (list string);
  stdout : list string;
  events : list event
}.

Definition M (A : Type) : Type := world → (exn + A) * world.

Definition ret {A} (a : A) : M A := fun w => (inr a, w).
Definition raise {A} (e : exn) : M A := fun w => (inl e, w).
Definition bind {A B} (m : M A) (k : A → M B) : M B :=
  fun w => match m w with
           | (inl e, w') => (inl e, w')
           | (inr a, w') => k a w'
           end.
Definition try_finally {A} (m : M A) (fin : M unit) : M A :=
  fun w => match m w with
           | (r, w') => match fin w' with
                        | (inl e, w'') => (inl e, w'')
                        | (inr _, w'') => (r, w'')
                        end
           end.

Global Instance M_ret : MRet M := @ret.
Global Instance M_bind : MBind M := fun A B k m => bind m k.

Fixpoint for_each {A} (l : list A) (body : A → M unit) : M unit :=
  match l with
  | [] => ret tt
  | x :: t => bind (body x) (fun _ => for_each t body)
  end.

Fixpoint foldM {A S} (body : S → A → M S) (s : S) (l : list A) : M S :=
  match l with
  | [] => ret s
  | x :: t => bind (body s x) (fun s' => foldM body s' t)
  end.

Definition when (b : bool) (m : M unit) : M unit := if b then m else ret tt.

(** *** Vocabulary for stating properties of effectful code *)

(** Computations that leave the world as it is. *)
Definition readonly {A} (m : M A) : Prop := ∀ w r w', m w = (r, w') → w' = w.

(** Computations whose result does not depend on the world. *)
Definition constant {A} (m : M A) : Prop := ∃ r, ∀ w, m w = (r, w).

(** [m] keeps [I], however it ends. *)
Definition preserves {A} (I : world → Prop) (m : M A) : Prop :=
  ∀ w r w', I w → m w = (r, w') → I w'.

(** *** Primitive operations *)

Module IO.

Definition add_events (w : world) (evs : list event) : world :=
  {| fs := fs w; buffers := buffers w; stdout := stdout w;
     events := events w ++ evs |}.

Definition log (e : event) : M unit := fun w => (inr tt, add_events w [e]).

Definition print (s : string) : M unit := fun w =>
  (inr tt, {| fs := fs w; buffers := buffers w; stdout := stdout w ++ [s];
              events := events w |}).

Definition sys_exit {A} (code : Z) : M A := raise (SystemExit code).

(** [io.DEFAULT_BUFFER_SIZE] *)
Definition DEFAULT_BUFFER_SIZE : nat := 8 * 1024.

Definition size (content : list string) : nat :=
  sum_list (String.length <$> content).

(** [os.path.exists] *)
Definition path_exists (p : string) : M bool := fun w =>
  (inr (bool_decide (is_Some (fs w !! p))), w).

(** [open(p).read()] *)
Definition read (p : string) : M string := fun w =>
  match fs w !! p with
  | Some c => (inr (String.concat "" c), w)
  | None => (inl (FileNotFoundError p), w)
  end.

(** [open(p, "w")]: creates or truncates the file, with an empty buffer. *)
Definition open_w (p : string) : M unit := fun w =>
  (inr tt, {| fs := <[p := []]> (fs w); buffers := <[p := []]> (buffers w);
              stdout := stdout w; events := events w |}).

(** Buffered data reaches the file the handle was opened on; once the path
    has been unlinked it no longer reaches any file of the directory. *)
Definition flush (p : string) : M unit := fun w =>
  match buffers w !! p with
  | None => (inr tt, w)
  | Some b =>
      (inr tt, {| fs := match fs w !! p with
                        | Some c => <[p := c ++ b]> (fs w)
                        | None => fs w
                        end;
                  buffers := <[p := []]> (buffers w);
                  stdout := stdout w; events := events w |})
  end.

(** [f.write(s)]: appended to the buffer, flushed once the buffer holds
    [bufsize] bytes. *)
Definition write (bufsize : nat) (p : string) (s : string) : M unit := fun w =>
  let b := default [] (buffers w !! p) ++ [s] in
  let w' := {| fs := fs w; buffers := <[p := b]> (buffers w);
               stdout := stdout w; events := events w |} in
  if bufsize <=? size b then flush p w' else (inr tt, w').

(** Leaving the [with] block. *)
Definition close (p : string) : M unit := fun w =>
  match flush p w with
  | (r, w') => (r, {| fs := fs w'; buffers := delete p (buffers w');
                      stdout := stdout w'; events := events w' |})
  end.

(** [os.path.getsize] *)
Definition getsize (p : string) : M nat := fun w =>
  match fs w !! p with
  | Some c => (inr (size c), w)
  | None => (inl (FileNotFoundError p), w)
  end.

(** [os.remove] *)
Definition remove (p : string) : M unit := fun w =>
  match fs w !! p with
  | Some _ => (inr tt, {| fs := delete p (fs w); buffers := buffers w;
                          stdout := stdout w; events := events w |})
  | None => (inl (FileNotFoundError p), w)
  end.

(** What an open, still linked file will hold once flushed. *)
Definition content (w : world) (p : string) : option (list string) :=
  c ← fs w !! p; b ← buffers w !! p; Some (c ++ b).

(** [w'] differs from [w] at most in the file and the buffer of [p]. *)
Definition frame (p : string) (w w' : world) : Prop :=
  (∀ q, q ≠ p → fs w' !! q = fs w !! q ∧ buffers w' !! q = buffers w !! q)
  ∧ events w' = events w ∧ stdout w' = stdout w.

(** Every string in the file at [p], flushed or still buffered, is [good]. *)
Definition all_lines (good : string → Prop) (p : string) (w : world) : Prop :=
  (∀ c, fs w !! p = Some c → Forall good c) ∧
  (∀ b, buffers w !! p = Some b → Forall good b).

(** No file of zero bytes at [p]. *)
Definition no_empty_file (p : string) (w : world) : Prop :=
  ∀ c, fs w !! p = Some c → 0 < size c.

(** [with open(p, "w") as f: body] *)
Definition with_open {A} (p : string) (body : M A) : M A :=
  _ ← open_w p; try_finally body (close p).

End IO.

(** ** Chunking helper *)

(** Modelled from the spec: [pedl.utils.chunks] is imported by both source
    files but is not under src/.  The spec describes it as a pure function
    mapping (sequence, chunk size) to the finite sequence of fixed-size
    sub-sequences, the last one possibly shorter.  It gives no meaning to a
    chunk size of zero, for which the model returns [None]. *)
Fixpoint chunks_fuel {A} (fuel : nat) (l : list A) (n : nat) : list (list A) :=
  match fuel, l with
  | S f, _ :: _ => take n l :: chunks_fuel f (drop n l) n
  | _, _ => []
  end.

Definition chunks {A} (l : list A) (n : nat) : option (list (list A)) :=
  if n =? 0 then None else Some (chunks_fuel (length l) l n).

(** ** predict (cli.py, 33-188) *)

Module Args.
Record t := {
  p1 : list string;
  p2 : list string;
  out : string;
  model : string;
  dbs : list string;
  pubtator : option string;
  cutoff : Q;
  batch_size : nat;
  skip_reverse : bool
}.
End Args.

(** The collaborators of one run: symbol tables, evidence provider, pathway
    databases, the scoring model (sigmoid of the per-relation outputs for a
    batch of blinded texts), the label table of [PEDLDataset], and the
    buffer size of the I/O layer. *)
Record Env := {
  hgnc_symbol_to_gene_id : gmap string string;
  geneid_to_name : gmap string string;
  get_sentences : string → string → list (list Sentence);
  get_statements : string → string → string → list Statement;
  indra_installed : bool;
  scores : list string → list (list Q);
  id_to_label : nat → string;
  io_buffer_size : nat
}.

Record ExtractionRecord := {
  label : string;
  score : Q;
  rec_pmid : string;
  sentence_text : string;
  source : string
}.

Module Predict.
Import IO.

Definition LFc : Ascii.ascii := Ascii.ascii_of_nat 10.
Definition TABc : Ascii.ascii := Ascii.ascii_of_nat 9.

(** Lines 40-50: a single argument naming an existing file is read as a
    list of identifiers, one per line. *)
Definition read_ids (a : list string) : M (list string) :=
  match a with
  | [x] =>
      e ← path_exists x;
      if (e : bool) then c ← read x; mret (Py.split LFc (Py.strip c))
      else mret a
  | _ => mret a
  end.

(** Lines 53-67 *)
Definition maybe_map (hgnc : gmap string string) (p : string) : M string :=
  if Py.isnumeric p then mret p
  else match hgnc !! p with
       | Some g => mret g
       | None => raise (AssertionError
                   (p +:+ " is neither a valid HGNC symbol nor a Entrez gene id"))
       end.

(** Lines 69-74: the work list of pairs. *)
Definition pairs_to_query (p1s p2s : list string) (skip_reverse : bool)
  : list (string * string) :=
  flat_map (fun p1 =>
    flat_map (fun p2 =>
      (p1, p2) :: (if skip_reverse then [] else [(p2, p1)])) p2s) p1s.

Definition cap_message (n : nat) : string :=
  "Using PEDL without a local PubTator copy is only supported for small queries up to 100 protein pairs. Your query contains "
  +:+ pretty n +:+ " pairs. Aborting.".

(** Lines 75-77 *)
Definition check_cap (args : Args.t) (pairs : list (string * string)) : M unit :=
  if (100 <? length pairs) && negb (bool_decide (is_Some (Args.pubtator args)))
  then _ ← print (cap_message (length pairs)); sys_exit 1
  else mret tt.

(** Lines 134-137 *)
Definition db_result (db : string) (stmt : Statement) : string :=
  let pmids := Py.join "," (ev_pmid <$> evidence stmt) in
  let provenances := Py.join "," (source_id <$> evidence stmt) in
  stmt_class stmt +:+ Py.TAB +:+ "1.0" +:+ Py.TAB +:+ pmids +:+ Py.TAB
    +:+ provenances +:+ Py.TAB +:+ db +:+ Py.LF +:+ Py.LF.

(** Lines 131-140 *)
Definition write_db_results (env : Env) (path : string) (dbs : list string)
    (p1 p2 : string) : M (gset string) :=
  foldM (fun processed db =>
    _ ← log (EvGetStatements db p1 p2);
    foldM (fun (processed : gset string) stmt =>
      let r := db_result db stmt in
      _ ← when (negb (bool_decide (r ∈ processed)))
               (write (io_buffer_size env) path r);
      mret ({[ r ]} ∪ processed))
      processed (get_statements env db p1 p2))
    (∅ : gset string) dbs.

(** Lines 147-149: what is kept of one evidence batch. *)
Definition keep_new (processed_sentences : gset string)
    (sentences_chunk : list Sentence) : list Sentence :=
  let sentences := Py.sorted_by (fun x => String.length (text x)) sentences_chunk in
  List.filter (fun i => negb (bool_decide (text i ∈ processed_sentences))) sentences.

Record scoring := {
  probs : list (list (list Q));
  all_sentences : list Sentence;
  processed_sentences : gset string
}.

(** Lines 146-162: one iteration of the loop over the evidence batches. *)
Definition score_chunk (env : Env) (args : Args.t) (st : scoring)
    (sentences_chunk : list Sentence) : M scoring :=
  let sentences := keep_new (processed_sentences st) sentences_chunk in
  let processed := processed_sentences st ∪ list_to_set (text <$> sentences) in
  let all := all_sentences st ++ sentences in
  match chunks sentences (Args.batch_size args) with
  | None => raise (ValueError "chunks")
  | Some batches =>
      ps ← foldM (fun ps sentences_batch =>
              let blinded := text_blinded <$> sentences_batch in
              _ ← log (EvModel blinded);
              mret (ps ++ [scores env blinded]))
            (probs st) batches;
      mret {| probs := ps; all_sentences := all; processed_sentences := processed |}
  end.

Definition record_of (env : Env) (all : list Sentence) (c : Ranker.cell)
  : option ExtractionRecord :=
  let '((i, j), max_score) := c in
  sentence ← all !! i;
  Some {| label := id_to_label env j; score := max_score;
          rec_pmid := pmid sentence; sentence_text := text sentence;
          source := "PEDL" |}.

Definition render (r : ExtractionRecord) : string :=
  label r +:+ Py.TAB +:+ Py.format_2f (score r) +:+ Py.TAB +:+ rec_pmid r
    +:+ Py.TAB +:+ sentence_text r +:+ Py.TAB +:+ source r +:+ Py.LF +:+ Py.LF.

(** The two kinds of lines of a pair's output file. *)
Definition db_line (s : string) : Prop := ∃ db stmt, s = db_result db stmt.

Definition record_line (cutoff : Q) (s : string) : Prop :=
  ∃ r, s = render r ∧ source r = "PEDL" ∧ (cutoff <= score r)%Q.

(** Lines 178-184 *)
Definition rank (env : Env) (args : Args.t) (path : string)
    (probs : Torch.tensor2) (all : list Sentence) : M unit :=
  for_each (Ranker.walk probs (Args.cutoff args)) (fun c =>
    match record_of env all c with
    | None => raise IndexError
    | Some r => write (io_buffer_size env) path (render r)
    end).

(** Lines 166-167, 174-175, 187-188 *)
Definition remove_if_empty (path : string) : M unit :=
  sz ← getsize path; when (sz =? 0) (remove path).

(** Lines 131-184, the body of the [with] block; [true] when it is left
    through [continue]. *)
Definition pair_body (env : Env) (args : Args.t) (dbs : list string)
    (path : string) (p1 p2 : string) : M bool :=
  _ ← write_db_results env path dbs p1 p2;
  _ ← log (EvGetSentences p1 p2);
  st ← foldM (score_chunk env args)
         {| probs := []; all_sentences := []; processed_sentences := ∅ |}
         (get_sentences env p1 p2);
  match all_sentences st with
  | [] => _ ← remove_if_empty path; mret true
  | _ :: _ =>
      match Torch.cat (probs st) with
      | None => raise RuntimeError
      | Some probs =>
          if Torch.all_lt probs (Args.cutoff args)
          then _ ← remove_if_empty path; mret true
          else _ ← rank env args path probs (all_sentences st); mret false
      end
  end.

Definition path_out (env : Env) (args : Args.t) (p1 p2 : string) : string :=
  let name1 := default p1 (geneid_to_name env !! p1) in
  let name2 := default p2 (geneid_to_name env !! p2) in
  Args.out args +:+ "/" +:+ name1 +:+ "-" +:+ name2 +:+ ".txt".

(** Lines 120-188: one iteration of the loop over the pairs. *)
Definition process_pair (env : Env) (args : Args.t) (dbs : list string)
    (pr : string * string) : M unit :=
  let '(p1, p2) := pr in
  if bool_decide (p1 = p2) then mret tt
  else
    let path := path_out env args p1 p2 in
    continued ← with_open path (pair_body env args dbs path p1 p2);
    if (continued : bool) then mret tt else remove_if_empty path.

(** Lines 106-116 *)
Definition load_dbs (env : Env) (args : Args.t) : M (list string) :=
  match Args.dbs args with
  | [] => mret []
  | _ :: _ =>
      if indra_installed env then mret (Args.dbs args)
      else _ ← print "Harvesting interactions from databases requires indra.Please install via `pip install indra' for obtaining additional interactions from databases.";
           sys_exit 1
  end.

(** Lines 35-74: identifiers read and resolved, work list built. *)
Definition resolve_pairs (env : Env) (args : Args.t)
  : M (list string * list string * list (string * string)) :=
  let hgnc_to_gene_id := hgnc_symbol_to_gene_id env in
  p1s ← read_ids (Args.p1 args);
  p2s ← read_ids (Args.p2 args);
  maybe_mapped_p1s ← mapM (maybe_map hgnc_to_gene_id) p1s;
  maybe_mapped_p2s ← mapM (maybe_map hgnc_to_gene_id) p2s;
  mret (maybe_mapped_p1s, maybe_mapped_p2s,
        pairs_to_query maybe_mapped_p1s maybe_mapped_p2s (Args.skip_reverse args)).

(** Lines 75-188 *)
Definition run_pairs (env : Env) (args : Args.t)
    (maybe_mapped_p1s maybe_mapped_p2s : list string)
    (pairs : list (string * string)) : M unit :=
  _ ← check_cap args pairs;
  _ ← log (EvFromPretrained (Args.model args));
  let universe : gset string := list_to_set (maybe_mapped_p1s ++ maybe_mapped_p2s) in
  _ ← log (EvDataGetter universe);
  _ ← log (EvTokenizer (Args.model args));
  _ ← log (EvMakedirs (Args.out args));
  dbs ← load_dbs env args;
  for_each pairs (process_pair env args dbs).

Definition predict (env : Env) (args : Args.t) : M unit :=
  r ← resolve_pairs env args;
  run_pairs env args r.1.1 r.1.2 r.2.

(** *** The scoring loop without its log

    What lines 146-162 keep and score, as a function of the evidence
    batches; [score_chunk] computes the same state and logs one model call
    per batch. *)
Definition gather_chunk (env : Env) (args : Args.t) (st : scoring)
    (sentences_chunk : list Sentence) : option scoring :=
  let sentences := keep_new (processed_sentences st) sentences_chunk in
  batches ← chunks sentences (Args.batch_size args);
  Some {| probs := probs st
                   ++ ((fun b => scores env (text_blinded <$> b)) <$> batches);
          all_sentences := all_sentences st ++ sentences;
          processed_sentences :=
            processed_sentences st ∪ list_to_set (text <$> sentences) |}.

Fixpoint gather_from (env : Env) (args : Args.t) (st : scoring)
    (l : list (list Sentence)) : option scoring :=
  match l with
  | [] => Some st
  | c :: t => st' ← gather_chunk env args st c; gather_from env args st' t
  end.

Definition gather (env : Env) (args : Args.t) (p1 p2 : string) : option scoring :=
  gather_from env args
    {| probs := []; all_sentences := []; processed_sentences := ∅ |}
    (get_sentences env p1 p2).

(** The score rows of one batch. *)
Definition score_of (env : Env) (b : list Sentence) : list (list Q) :=
  scores env (text_blinded <$> b).

(** The lines a pair's output file may hold. *)
Definition output_line (cutoff : Q) (s : string) : Prop :=
  db_line s ∨ record_line cutoff s.

End Predict.

(** ** BertForDistantSupervision.forward_batched
       (bert_for_distant_supervision.py, 135-156) *)

Module Bert.

(** The auxiliary outputs of [forward]: one entry and one row per input
    sentence. *)
Record meta := { alphas : list Q; alphas_by_rel : list (list Q) }.

Section forward_batched.

(** The network itself is a capability: token ids and attention mask of a
    batch in, pooled bag logits and per-sentence outputs out. *)
Variable forward : list (list nat) → list (list nat) → list Q * meta.

(** [t[indices_batch]] *)
Definition index_select {A} (t : list A) (indices : list nat) : option (list A) :=
  mapM (fun i => t !! i) indices.

Definition forward_batched (input_ids attention_mask : list (list nat))
    (batch_size : nat) : option (list Q * meta) :=
  if batch_size =? 0 then Some (forward input_ids attention_mask)
  else
    let indices := seq 0 (length input_ids) in
    batches ← chunks indices batch_size;
    outs ← mapM (fun indices_batch =>
              input_ids_batch ← index_select input_ids indices_batch;
              attention_mask_batch ← index_select attention_mask indices_batch;
              Some (forward input_ids_batch attention_mask_batch)) batches;
    logits_all ← Torch.cat (fst <$> outs);
    alphas_all ← Torch.cat ((fun o => alphas (snd o)) <$> outs);
    by_rel_all ← Torch.cat ((fun o => alphas_by_rel (snd o)) <$> outs);
    Some (logits_all, {| alphas := alphas_all; alphas_by_rel := by_rel_all |}).

End forward_batched.
End Bert.

(** ** build_training_set (cli.py, 191-251) *)

Module TrainArgs.
Record t := {
  out : string;
  out_blinded : string;
  n_worker : Z;
  worker_id : Z;
  triples : string
}.

(** The same run seen by another worker. *)
Definition as_worker (a : t) (w : Z) : t :=
  {| out := out a; out_blinded := out_blinded a; n_worker := n_worker a;
     worker_id := w; triples := triples a |}.
End TrainArgs.

Definition Document := string.

(** The evidence provider seen by the crawler. *)
Record Provider := {
  get_pmids : Entity → gset string;
  get_documents : list string → list (list Document);
  get_sentences_from_document : Entity → Entity → Document → list Sentence
}.

(** The order in which one run of the interpreter iterates its sets.  It
    depends on the hash values of the elements, which for strings change
    from one process to the next. *)
Record SetOrder := {
  iter_pairs : gset (Entity * Entity) → list (Entity * Entity);
  iter_relations : gset string → list string
}.

Module Crawl.
Import IO.

(** [for line in f] *)
Definition file_lines (content : string) : list string :=
  match content with
  | EmptyString => []
  | _ => let ps := Py.split Predict.LFc content in
         match last ps with
         | Some EmptyString => removelast ps
         | _ => ps
         end
  end.

(** Lines 200-205 *)
Definition parse_triple (line : string) : M (Entity * Entity * string) :=
  match Py.split Predict.TABc (Py.strip line) with
  | [type_head; cuid_head; type_tail; cuid_tail; rel] =>
      mret ({| cuid := cuid_head; type := type_head |},
            {| cuid := cuid_tail; type := type_tail |}, rel)
  | _ => raise (ValueError "unpack")
  end.

Record tables := {
  pair_to_relations : gmap (Entity * Entity) (gset string);
  pair_order : list (Entity * Entity);
  gene_universe : gset string;
  chemical_universe : gset string
}.

(** Lines 207-218 *)
Definition add_to_universe (e : Entity) (tb : tables) : M tables :=
  if bool_decide (type e = "Chemical") then
    mret {| pair_to_relations := pair_to_relations tb; pair_order := pair_order tb;
            gene_universe := gene_universe tb;
            chemical_universe := {[ cuid e ]} ∪ chemical_universe tb |}
  else if bool_decide (type e = "Gene") then
    mret {| pair_to_relations := pair_to_relations tb; pair_order := pair_order tb;
            gene_universe := {[ cuid e ]} ∪ gene_universe tb;
            chemical_universe := chemical_universe tb |}
  else raise (ValueError (type e)).

(** Lines 199-218: one line of the triples file.  [pair_order] is the
    insertion order of the keys of [pair_to_relations]. *)
Definition add_triple (tb : tables) (line : string) : M tables :=
  '(head, tail, rel) ← parse_triple line;
  let rels := default ∅ (pair_to_relations tb !! (head, tail)) in
  let tb1 :=
    {| pair_to_relations := <[(head, tail) := {[ rel ]} ∪ rels]> (pair_to_relations tb);
       pair_order := if bool_decide ((head, tail) ∈ pair_order tb) then pair_order tb
                     else pair_order tb ++ [(head, tail)];
       gene_universe := gene_universe tb;
       chemical_universe := chemical_universe tb |} in
  tb2 ← add_to_universe head tb1;
  add_to_universe tail tb2.

(** Lines 227-234 *)
Definition add_pair (pv : Provider) (m : gmap string (gset (Entity * Entity)))
    (pair : Entity * Entity) : gmap string (gset (Entity * Entity)) :=
  let '(head, tail) := pair in
  let shared_pmids := get_pmids pv head ∩ get_pmids pv tail in
  set_fold (fun pmid m => <[pmid := {[ (head, tail) ]} ∪ default ∅ (m !! pmid)]> m)
           m shared_pmids.

Definition pmid_to_pairs (pv : Provider) (tb : tables)
  : gmap string (gset (Entity * Entity)) :=
  foldl (add_pair pv) ∅ (pair_order tb).

(** Line 237: [sorted(pmid_to_pairs)] *)
Definition crawl_order (m : gmap string (gset (Entity * Entity))) : list string :=
  Py.sorted (elements (dom m)).

(** Line 238: whether the worker skips position [i]. *)
Definition skips (args : TrainArgs.t) (i : nat) : option bool :=
  r ← Py.mod_ (Z.of_nat i) (TrainArgs.n_worker args);
  Some (negb (r =? TrainArgs.worker_id args)%Z).

(** The PMIDs a worker does not skip, in crawl order. *)
Definition assigned (args : TrainArgs.t) (order : list string) : list string :=
  omap (fun ip : nat * string =>
          match skips args ip.1 with
          | Some false => Some ip.2
          | _ => None
          end) (Py.enumerate order).

(** Lines 250-251: the seven tab-separated fields of a line. *)
Definition fields (ord : SetOrder) (head tail : Entity) (relations : gset string)
    (sentence_field : string) (sentence : Sentence) : list string :=
  [type head; cuid head; type tail; cuid tail;
   Py.join "," (iter_relations ord relations); sentence_field; pmid sentence].

Definition line (fs : list string) : string := Py.join Py.TAB fs +:+ Py.LF.

(** Lines 244-251 *)
Definition write_pair (ord : SetOrder) (pv : Provider) (bufsize : nat)
    (f f_blinded : string) (tb : tables) (doc : Document)
    (pair : Entity * Entity) : M unit :=
  let '(head, tail) := pair in
  let sentences := get_sentences_from_document pv head tail doc in
  let relations := default ∅ (pair_to_relations tb !! (head, tail)) in
  for_each sentences (fun sentence =>
    _ ← write bufsize f (line (fields ord head tail relations (text sentence) sentence));
    write bufsize f_blinded
      (line (fields ord head tail relations (text_blinded sentence) sentence))).

(** Lines 237-251: one iteration of the crawl loop. *)
Definition crawl_pmid (ord : SetOrder) (pv : Provider) (bufsize : nat)
    (args : TrainArgs.t) (f f_blinded : string) (tb : tables)
    (m : gmap string (gset (Entity * Entity))) (ip : nat * string) : M unit :=
  let '(i, pmid) := ip in
  match skips args i with
  | None => raise ZeroDivisionError
  | Some true => mret tt
  | Some false =>
      let pairs := default ∅ (m !! pmid) in
      _ ← log (EvGetDocuments [pmid]);
      match get_documents pv [pmid] with
      | [] => raise IndexError
      | [] :: _ => mret tt
      | (doc :: _) :: _ =>
          for_each (iter_pairs ord pairs) (write_pair ord pv bufsize f f_blinded tb doc)
      end
  end.

(** *** The crawl without its files

    The records lines 237-251 write, as a function of the tables: one
    record per written line of either shard. *)
Definition record := (Entity * Entity * gset string * Sentence)%type.

Definition raw_fields (ord : SetOrder) (r : record) : list string :=
  let '(head, tail, relations, sentence) := r in
  fields ord head tail relations (text sentence) sentence.

Definition blinded_fields (ord : SetOrder) (r : record) : list string :=
  let '(head, tail, relations, sentence) := r in
  fields ord head tail relations (text_blinded sentence) sentence.

Definition raw_line (ord : SetOrder) (r : record) : string :=
  line (raw_fields ord r).

Definition blinded_line (ord : SetOrder) (r : record) : string :=
  line (blinded_fields ord r).


Definition pair_records (pv : Provider) (tb : tables) (doc : Document)
    (pair : Entity * Entity) : list record :=
  (fun sentence => (pair.1, pair.2,
                    default ∅ (pair_to_relations tb !! (pair.1, pair.2)), sentence))
    <$> get_sentences_from_document pv pair.1 pair.2 doc.

Definition pmid_records (ord : SetOrder) (pv : Provider) (args : TrainArgs.t)
    (tb : tables) (m : gmap string (gset (Entity * Entity)))
    (ip : nat * string) : exn + list record :=
  match skips args ip.1 with
  | None => inl ZeroDivisionError
  | Some true => inr []
  | Some false =>
      match get_documents pv [ip.2] with
      | [] => inl IndexError
      | [] :: _ => inr []
      | (doc :: _) :: _ =>
          inr (flat_map (pair_records pv tb doc)
                 (iter_pairs ord (default ∅ (m !! ip.2))))
      end
  end.

(** The records written before the loop ends, and the exception that ends
    it early, if any. *)
Fixpoint crawl_records (ord : SetOrder) (pv : Provider) (args : TrainArgs.t)
    (tb : tables) (m : gmap string (gset (Entity * Entity)))
    (l : list (nat * string)) : list record * option exn :=
  match l with
  | [] => ([], None)
  | ip :: t =>
      match pmid_records ord pv args tb m ip with
      | inl e => ([], Some e)
      | inr rs =>
          let rest := crawl_records ord pv args tb m t in
          (rs ++ rest.1, rest.2)
      end
  end.

(** How the loop ends. *)
Definition outcome (e : option exn) : exn + unit :=
  match e with
  | None => inr tt
  | Some e => inl e
  end.

Definition shard_path (out : string) (worker_id : Z) : string :=
  out +:+ "." +:+ pretty worker_id.

(** Lines 192-218 *)
Definition load_tables (args : TrainArgs.t) : M tables :=
  content ← read (TrainArgs.triples args);
  foldM add_triple
    {| pair_to_relations := ∅; pair_order := [];
       gene_universe := ∅; chemical_universe := ∅ |}
    (file_lines content).

(** Lines 220-251 *)
Definition crawl (ord : SetOrder) (pv : Provider) (bufsize : nat)
    (args : TrainArgs.t) (tb : tables) : M unit :=
  _ ← log (EvDataGetter (chemical_universe tb ∪ gene_universe tb));
  let m := pmid_to_pairs pv tb in
  let f := shard_path (TrainArgs.out args) (TrainArgs.worker_id args) in
  let f_blinded := shard_path (TrainArgs.out_blinded args) (TrainArgs.worker_id args) in
  with_open f (with_open f_blinded
    (for_each (Py.enumerate (crawl_order m))
       (crawl_pmid ord pv bufsize args f f_blinded tb m))).

Definition build_training_set (ord : SetOrder) (pv : Provider) (bufsize : nat)
    (args : TrainArgs.t) : M unit :=
  tb ← load_tables args;
  crawl ord pv bufsize args tb.

End Crawl.

(** ** Example runs *)

Module PairExample.

Definition s1 : Sentence :=
  {| text := "X binds Y"; text_blinded := "<e1> binds <e2>"; pmid := "1" |}.
Definition s2 : Sentence :=
  {| text := "X binds Y"; text_blinded := "<e1> binds <e2>"; pmid := "2" |}.

(** One evidence batch for the pair (1, 2) holding the same sentence text
    under two PMIDs; one label, scored 0.9. *)
Definition env : Env := {|
  hgnc_symbol_to_gene_id := ∅;
  geneid_to_name := ∅;
  get_sentences := fun p1 p2 =>
    if bool_decide (p1 = "1" ∧ p2 = "2") then [[s1; s2]] else [];
  get_statements := fun _ _ _ => [];
  indra_installed := false;
  scores := fun b => (fun _ => [(9 # 10)%Q]) <$> b;
  id_to_label := fun _ => "in-complex-with";
  io_buffer_size := IO.DEFAULT_BUFFER_SIZE
|}.

Definition args : Args.t := {|
  Args.p1 := ["1"]; Args.p2 := ["2"]; Args.out := "out";
  Args.model := "leonweber/PEDL"; Args.dbs := []; Args.pubtator := None;
  Args.cutoff := (1 # 2)%Q; Args.batch_size := 50; Args.skip_reverse := true
|}.

Definition w0 : world := {| fs := ∅; buffers := ∅; stdout := []; events := [] |}.

Definition db_stmt : Statement :=
  {| stmt_class := "Complex";
     evidence := replicate 500 {| ev_pmid := "12345678"; source_id := "R-HSA-1" |} |}.

(** A pathway database reporting one statement for the pair, backed by five
    hundred evidence entries, and an evidence provider with no sentence. *)
Definition db_env : Env := {|
  hgnc_symbol_to_gene_id := ∅;
  geneid_to_name := ∅;
  get_sentences := fun _ _ => [];
  get_statements := fun _ _ _ => [db_stmt];
  indra_installed := true;
  scores := fun b => (fun _ => [(9 # 10)%Q]) <$> b;
  id_to_label := fun _ => "in-complex-with";
  io_buffer_size := IO.DEFAULT_BUFFER_SIZE
|}.

Definition db_args : Args.t := {|
  Args.p1 := ["1"]; Args.p2 := ["2"]; Args.out := "out";
  Args.model := "leonweber/PEDL"; Args.dbs := ["reactome"]; Args.pubtator := None;
  Args.cutoff := (1 # 2)%Q; Args.batch_size := 50; Args.skip_reverse := true
|}.

End PairExample.

Module CrawlExample.

Definition triples_text : string :=
  "Gene" +:+ Py.TAB +:+ "1" +:+ Py.TAB +:+ "Gene" +:+ Py.TAB +:+ "2" +:+ Py.TAB
    +:+ "activates" +:+ Py.LF
  +:+ "Gene" +:+ Py.TAB +:+ "1" +:+ Py.TAB +:+ "Gene" +:+ Py.TAB +:+ "2" +:+ Py.TAB
    +:+ "inhibits" +:+ Py.LF.

Definition pv : Provider := {|
  get_pmids := fun _ => {[ "100"; "200"; "300" ]};
  get_documents := fun pmids => (fun p => [p]) <$> pmids;
  get_sentences_from_document := fun _ _ doc =>
    [{| text := "A activates B"; text_blinded := "<e1> activates <e2>"; pmid := doc |}]
|}.

(** Two iteration orders of the relation sets, as two processes with
    different string hash seeds may have them. *)
Definition ascending : SetOrder := {|
  iter_pairs := elements;
  iter_relations := fun R => Py.sorted (elements R)
|}.

Definition descending : SetOrder := {|
  iter_pairs := elements;
  iter_relations := fun R => reverse (Py.sorted (elements R))
|}.

Definition args : TrainArgs.t := {|
  TrainArgs.out := "train";
  TrainArgs.out_blinded := "train_blinded";
  TrainArgs.n_worker := 2;
  TrainArgs.worker_id := 1;
  TrainArgs.triples := "triples.tsv"
|}.

Definition w0 : world := {|
  fs := {[ "triples.tsv" := [triples_text] ]};
  buffers := ∅; stdout := []; events := []
|}.

Definition tb : Crawl.tables := {|
  Crawl.pair_to_relations :=
    {[ ({| cuid := "1"; type := "Gene" |}, {| cuid := "2"; type := "Gene" |})
       := {[ "activates"; "inhibits" ]} ]};
  Crawl.pair_order :=
    [({| cuid := "1"; type := "Gene" |}, {| cuid := "2"; type := "Gene" |})];
  Crawl.gene_universe := {[ "1"; "2" ]};
  Crawl.chemical_universe := ∅
|}.

End CrawlExample.

Module CapExample.

Definition env : Env := {|
  hgnc_symbol_to_gene_id := ∅;
  geneid_to_name := ∅;
  get_sentences := fun _ _ => [];
  get_statements := fun _ _ _ => [];
  indra_installed := false;
  scores := fun b => (fun _ => []) <$> b;
  id_to_label := fun j => pretty j;
  io_buffer_size := IO.DEFAULT_BUFFER_SIZE
|}.

Definition args : Args.t := {|
  Args.p1 := ["1"; "2"; "3"; "4"; "5"; "6"; "7"; "8"; "9"; "10"; "11"];
  Args.p2 := ["21"; "22"; "23"; "24"; "25"; "26"; "27"; "28"; "29"; "30"];
  Args.out := "out";
  Args.model := "leonweber/PEDL";
  Args.dbs := [];
  Args.pubtator := None;
  Args.cutoff := (1 # 100)%Q;
  Args.batch_size := 50;
  Args.skip_reverse := false
|}.

Definition w0 : world := {| fs := ∅; buffers := ∅; stdout := []; events := [] |}.

End CapExample.

(** ** Vocabulary for identifier files *)

Module Ids.


(** Only white space. *)
Fixpoint all_space (s : string) : bool :=
  match s with
  | EmptyString => true
  | String c t => Py.is_space c && all_space t
  end.



End Ids.

(** ** The output file of a pair as a function of its inputs *)

Module PairFile.
Import Predict.

(** Lines 131-137: the lines the databases give rise to, in loop order. *)
Definition db_results (env : Env) (dbs : list string) (p1 p2 : string)
  : list string :=
  flat_map (fun db => db_result db <$> get_statements env db p1 p2) dbs.

(** Lines 138-140: what is written of a sequence of lines, [seen] being
    [processed_db_results] when the sequence starts. *)
Fixpoint first_occurrences (seen : gset string) (l : list string) : list string :=
  match l with
  | [] => []
  | r :: t =>
      if bool_decide (r ∈ seen) then first_occurrences seen t
      else r :: first_occurrences ({[ r ]} ∪ seen) t
  end.

Definition db_lines (env : Env) (dbs : list string) (p1 p2 : string)
  : list string :=
  first_occurrences ∅ (db_results env dbs p1 p2).

(** Consecutive [f.write] calls. *)
Definition write_lines (bufsize : nat) (path : string) (ls : list string) : M unit :=
  for_each ls (IO.write bufsize path).

End PairFile.

(** [w'] is [w] after a pair has been processed: the external calls [evs]
    were made in this order, the handle on [path] is closed, nothing was
    printed, and no file or open handle other than [path] has changed. *)
Definition pair_done (path : string) (evs : list event) (w w' : world) : Prop :=
  events w' = events w ++ evs ∧
  stdout w' = stdout w ∧
  buffers w' !! path = None ∧
  ∀ q, q ≠ path → fs w' !! q = fs w !! q ∧ buffers w' !! q = buffers w !! q.

(** The external calls made for one pair: every database once, in the
    order given, then the evidence provider, then the model once per
    batch. *)
Definition pair_trace (dbs : list string) (p1 p2 : string)
    (batches : list (list Sentence)) : list event :=
  ((fun db => EvGetStatements db p1 p2) <$> dbs)
    ++ [EvGetSentences p1 p2]
    ++ ((fun b => EvModel (text_blinded <$> b)) <$> batches).

Module DbExample.

Definition stmt : Statement :=
  {| stmt_class := "Complex";
     evidence := [{| ev_pmid := "12345678"; source_id := "R-HSA-1" |}] |}.

(** Every pathway database reports the same single statement for every
    pair; the one sentence of the pair scores below the cutoff of
    [PairExample.db_args]. *)
Definition env : Env := {|
  hgnc_symbol_to_gene_id := ∅;
  geneid_to_name := ∅;
  get_sentences := fun _ _ => [[PairExample.s1]];
  get_statements := fun _ _ _ => [stmt];
  indra_installed := true;
  scores := fun b => (fun _ => [(1 # 10)%Q]) <$> b;
  id_to_label := fun _ => "in-complex-with";
  io_buffer_size := IO.DEFAULT_BUFFER_SIZE
|}.

Definition opened : world := {|
  fs := {[ "out/1-2.txt" := [] ]}; buffers := {[ "out/1-2.txt" := [] ]};
  stdout := []; events := []
|}.

End DbExample.

(** ** Vocabulary for the triples file *)

Module Triples.
Import Crawl.






End Triples.

(** ** BertForDistantSupervision.forward: the entity positions
       (bert_for_distant_supervision.py, 91-96) *)

Module EntityIndex.

(** [(input_ids == e_id).long()], for one row of token ids. *)
Definition mask (e_id : nat) (row : list nat) : list nat :=
  (fun t => if t =? e_id then 1 else 0) <$> row.

(** [argmax] along a row: the index of the first maximal value; a row of
    size zero is refused. *)
Fixpoint argmax_from (best_i best_v i : nat) (l : list nat) : nat :=
  match l with
  | [] => best_i
  | x :: t =>
      if best_v <? x then argmax_from i x (S i) t
      else argmax_from best_i best_v (S i) t
  end.

Definition argmax (row : list nat) : option nat :=
  match row with
  | [] => None
  | x :: t => Some (argmax_from 0 x 1 t)
  end.

(** Lines 91, 93 and 95 for one row: the position whose embedding stands
    for the entity. *)
Definition entity_index (e_id : nat) (row : list nat) : option nat :=
  let e_mask := mask e_id row in
  e_idx ← argmax e_mask;
  Some (if sum_list e_mask =? 0 then 0 else e_idx).

End EntityIndex.

(** * Properties *)

(** ** The ranker *)

Section RankerFacts.
Import Torch Ranker.

Lemma hits_app ij l1 l2 : hits ij (l1 ++ l2) = hits ij l1 + hits ij l2.
Proof. unfold hits. by rewrite List.filter_app, length_app. Qed.



(** A row contributes the cell [(i, j)] once when its entry at [j] equals
    the walked value, and never otherwise. *)
Lemma hits_row (m : Q) (i i' j : nat) (row : list Q) (k : nat) :
  hits (i, j) (row_hits m i' (Py.enumerate_from k row)) =
  if bool_decide (i = i' ∧ k ≤ j) then
    match row !! (j - k) with
    | Some x => if Qeq_bool x m then 1 else 0
    | None => 0
    end
  else 0.
Proof.
  revert k. induction row as [|x row IH]; intros k.
  - simpl. case_bool_decide; [|done]. by destruct (j - k).
  - cbn [Py.enumerate_from row_hits flat_map]. fold (row_hits m i' (Py.enumerate_from (S k) row)).
    rewrite hits_app, IH. cbn [fst snd].
    destruct (decide (i = i' ∧ k = j)) as [[-> ->]|Hne].
    + replace (j - j) with 0 by lia. cbn [lookup list_lookup].
      rewrite (bool_decide_eq_true_2 (i' = i' ∧ j ≤ j)) by (split; [done|lia]).
      rewrite (bool_decide_eq_false_2 (i' = i' ∧ S j ≤ j)) by lia.
      destruct (Qeq_bool x m); [|done].
      unfold hits. simpl. by rewrite bool_decide_eq_true_2.
    + assert (hits (i, j) (if Qeq_bool x m then [(i', k)] else []) = 0) as ->.
      { destruct (Qeq_bool x m); [|done]. unfold hits. simpl.
        rewrite bool_decide_eq_false_2; [done|]. intros [= -> ->]. by apply Hne. }
      simpl. case_bool_decide as H1; case_bool_decide as H2.
      all: try (destruct H1 as [-> H1]).
      all: try (destruct H2 as [-> H2]).
      all: first [ done | idtac ].
      * replace (j - k) with (S (j - S k)) by lia. done.
      * exfalso. apply H2. split; [done|lia].
      * exfalso. assert (k ≠ j) by (intros ->; by apply Hne). lia.
Qed.

Lemma hits_where_from (m : Q) (i j : nat) (probs : tensor2) (k : nat) :
  hits (i, j)
    (flat_map (fun ir => row_hits m (fst ir) (Py.enumerate (snd ir)))
       (Py.enumerate_from k probs)) =
  if bool_decide (k ≤ i) then
    match probs !! (i - k) with
    | Some row => match row !! j with
                  | Some x => if Qeq_bool x m then 1 else 0
                  | None => 0
                  end
    | None => 0
    end
  else 0.
Proof.
  revert k. induction probs as [|row probs IH]; intros k.
  - simpl. case_bool_decide; [|done]. by destruct (i - k).
  - cbn [Py.enumerate_from flat_map]. rewrite hits_app, IH. cbn [fst snd].
    unfold Py.enumerate. rewrite hits_row. replace (j - 0) with j by lia.
    destruct (decide (i = k)) as [->|Hne].
    + rewrite (bool_decide_eq_true_2 (k = k ∧ 0 ≤ j)) by (split; [done|lia]).
      rewrite (bool_decide_eq_false_2 (S k ≤ k)) by lia.
      rewrite (bool_decide_eq_true_2 (k ≤ k)) by lia.
      replace (k - k) with 0 by lia. simpl. lia.
    + rewrite (bool_decide_eq_false_2 (i = k ∧ 0 ≤ j)) by (intros [? _]; done).
      simpl. do 2 case_bool_decide; try lia.
      replace (i - k) with (S (i - S k)) by lia. done.
Qed.


Lemma Qlt_bool_true x y : Qlt_bool x y = true ↔ (x < y)%Q.
Proof.
  unfold Qlt_bool. rewrite negb_true_iff, <- not_true_iff_false, Qle_bool_iff.
  split; [apply Qnot_le_lt | apply Qlt_not_le].
Qed.

Lemma Qlt_bool_false x y : Qlt_bool x y = false ↔ (y <= x)%Q.
Proof. unfold Qlt_bool. by rewrite negb_false_iff, Qle_bool_iff. Qed.


Lemma sort_desc_insert_perm x l : Permutation (insert_desc x l) (x :: l).
Proof.
  induction l as [|y l IH]; simpl; [done|].
  destruct (Qle_bool y x); [done|].
  rewrite IH. apply perm_swap.
Qed.

Lemma sort_desc_perm l : Permutation (sort_desc l) l.
Proof.
  induction l as [|x l IH]; simpl; [done|].
  by rewrite sort_desc_insert_perm, IH.
Qed.







Example walk_two_tied_cells :
  walk [[7 # 10; 7 # 10; 3 # 10]]%Q (1 # 2) =
  [((0, 0), (7 # 10)%Q); ((0, 1), (7 # 10)%Q);
   ((0, 0), (7 # 10)%Q); ((0, 1), (7 # 10)%Q)].
Proof. reflexivity. Qed.

(** A value below the cutoff is walked past without emission. *)
Example walk_skips_below_cutoff :
  walk [[7 # 10; 3 # 10]]%Q (1 # 2) = [((0, 0), (7 # 10)%Q)].
Proof. reflexivity. Qed.

(** The single-sentence scenario: one score of 0.9 over a cutoff of 0.5. *)
Example walk_single_cell :
  walk [[9 # 10; 1 # 10]]%Q (1 # 2) = [((0, 0), (9 # 10)%Q)].
Proof. reflexivity. Qed.

Lemma walk_step_reaches_cutoff (probs : tensor2) (cutoff m : Q) c :
  c ∈ walk_step probs cutoff m → c.2 = m ∧ (cutoff <= m)%Q.
Proof.
  unfold walk_step. destruct (Qlt_bool m cutoff) eqn:Hlt.
  - by intros ?%elem_of_nil.
  - intros (ij & -> & _)%list_elem_of_fmap. split; [done|].
    by apply Qlt_bool_false.
Qed.

Lemma walk_reaches_cutoff (probs : tensor2) (cutoff : Q) c :
  c ∈ walk probs cutoff → (cutoff <= c.2)%Q.
Proof.
  unfold walk. rewrite list_elem_of_In, in_flat_map.
  intros (m & _ & Hc). apply list_elem_of_In, walk_step_reaches_cutoff in Hc.
  destruct Hc as [-> ?]. done.
Qed.

Lemma walk_step_below (probs : tensor2) (cutoff m : Q) :
  (m < cutoff)%Q → walk_step probs cutoff m = [].
Proof. intros H%Qlt_bool_true. unfold walk_step. by rewrite H. Qed.

End RankerFacts.

(** ** Reasoning about effectful code *)

Section MonadFacts.

Lemma bind_unfold {A B} (m : M A) (k : A → M B) w :
  (m ≫= k) w = match m w with
               | (inl e, w') => (inl e, w')
               | (inr a, w') => k a w'
               end.
Proof. reflexivity. Qed.

Lemma bind_inv {A B} (m : M A) (k : A → M B) w r w' :
  (m ≫= k) w = (r, w') →
  (∃ e, m w = (inl e, w') ∧ r = inl e) ∨
  (∃ a w1, m w = (inr a, w1) ∧ k a w1 = (r, w')).
Proof.
  rewrite bind_unfold. destruct (m w) as [[e|a] w1]; intros H.
  - left. exists e. by inversion H.
  - right. by exists a, w1.
Qed.

Lemma bind_ok {A B} (m : M A) (k : A → M B) w a w1 :
  m w = (inr a, w1) → (m ≫= k) w = k a w1.
Proof. intros H. by rewrite bind_unfold, H. Qed.

Lemma bind_err {A B} (m : M A) (k : A → M B) w e w1 :
  m w = (inl e, w1) → (m ≫= k) w = (inl e, w1).
Proof. intros H. by rewrite bind_unfold, H. Qed.

Lemma readonly_ret {A} (a : A) : readonly (mret a).
Proof. intros w r w' H. by inversion H. Qed.

Lemma readonly_raise {A} e : readonly (raise e : M A).
Proof. intros w r w' H. by inversion H. Qed.

Lemma readonly_bind {A B} (m : M A) (k : A → M B) :
  readonly m → (∀ a, readonly (k a)) → readonly (m ≫= k).
Proof.
  intros Hm Hk w r w' [(e & H & _)|(a & w1 & H & H')]%bind_inv.
  - by apply Hm in H.
  - apply Hm in H as ->. by apply Hk in H'.
Qed.

Lemma readonly_mapM {A B} (f : A → M B) (l : list A) :
  (∀ a, readonly (f a)) → readonly (mapM f l).
Proof.
  intros Hf. induction l as [|a l IH]; simpl.
  - apply readonly_ret.
  - apply readonly_bind; [done|]. intros b.
    apply readonly_bind; [done|]. intros bs. apply readonly_ret.
Qed.

Lemma readonly_path_exists p : readonly (IO.path_exists p).
Proof. intros w r w' H. by inversion H. Qed.

Lemma readonly_read p : readonly (IO.read p).
Proof. intros w r w'. unfold IO.read. destruct (fs w !! p); by inversion 1. Qed.

Lemma preserves_ret {A} I (a : A) : preserves I (mret a).
Proof. intros w r w' HI H. by inversion H; subst. Qed.

Lemma preserves_raise {A} I e : preserves I (raise e : M A).
Proof. intros w r w' HI H. by inversion H; subst. Qed.

Lemma preserves_bind {A B} I (m : M A) (k : A → M B) :
  preserves I m → (∀ a, preserves I (k a)) → preserves I (m ≫= k).
Proof.
  intros Hm Hk w r w' HI [(e & H & _)|(a & w1 & H & H')]%bind_inv.
  - by eapply Hm.
  - eapply Hk; [|done]. by eapply Hm.
Qed.

Lemma preserves_for_each {A} I (l : list A) (body : A → M unit) :
  (∀ x, x ∈ l → preserves I (body x)) → preserves I (for_each l body).
Proof.
  induction l as [|x l IH]; intros Hb; simpl.
  - apply preserves_ret.
  - apply (preserves_bind I (body x) (fun _ => for_each l body)).
    + apply Hb. by left.
    + intros _. apply IH. intros y Hy. apply Hb. by right.
Qed.

Lemma preserves_foldM {A S} I (body : S → A → M S) (l : list A) s :
  (∀ s x, x ∈ l → preserves I (body s x)) → preserves I (foldM body s l).
Proof.
  revert s. induction l as [|x l IH]; intros s Hb; simpl.
  - apply preserves_ret.
  - apply (preserves_bind I (body s x) (fun s' => foldM body s' l)).
    + apply Hb. by left.
    + intros s'. apply IH. intros s'' y Hy. apply Hb. by right.
Qed.

Lemma preserves_when I (b : bool) (m : M unit) :
  preserves I m → preserves I (when b m).
Proof. intros Hm. destruct b; [done|apply preserves_ret]. Qed.

Lemma preserves_try_finally {A} I (m : M A) (fin : M unit) :
  preserves I m → preserves I fin → preserves I (try_finally m fin).
Proof.
  intros Hm Hf w r w' HI. unfold try_finally.
  destruct (m w) as [r1 w1] eqn:E1. destruct (fin w1) as [[e|[]] w2] eqn:E2.
  - intros [= <- <-]. eapply Hf; [|done]. by eapply Hm.
  - intros [= <- <-]. eapply Hf; [|done]. by eapply Hm.
Qed.

End MonadFacts.

(** ** Pair generation and the safety cap *)

Section PairFacts.
Import Predict.

Lemma readonly_read_ids a : readonly (read_ids a).
Proof.
  destruct a as [|x [|y a]]; [apply readonly_ret| |apply readonly_ret].
  apply readonly_bind; [apply readonly_path_exists|].
  intros [|]; [|apply readonly_ret].
  apply readonly_bind; [apply readonly_read|]. intros c. apply readonly_ret.
Qed.

Lemma readonly_maybe_map hgnc p : readonly (maybe_map hgnc p).
Proof.
  unfold maybe_map. destruct (Py.isnumeric p); [apply readonly_ret|].
  destruct (hgnc !! p); [apply readonly_ret|apply readonly_raise].
Qed.

Lemma readonly_resolve_pairs env args : readonly (resolve_pairs env args).
Proof.
  unfold resolve_pairs.
  apply readonly_bind; [apply readonly_read_ids|]. intros p1s.
  apply readonly_bind; [apply readonly_read_ids|]. intros p2s.
  apply readonly_bind; [apply readonly_mapM, readonly_maybe_map|]. intros m1.
  apply readonly_bind; [apply readonly_mapM, readonly_maybe_map|]. intros m2.
  apply readonly_ret.
Qed.

Lemma pairs_forward (p1 : string) (p2s : list string) :
  flat_map (fun p2 => [(p1, p2)]) p2s = map (fun p2 => (p1, p2)) p2s.
Proof. induction p2s as [|p2 p2s IH]; simpl; by rewrite ?IH. Qed.

Lemma pairs_interleaved (p1 : string) (p2s : list string) :
  flat_map (fun p2 => [(p1, p2); (p2, p1)]) p2s
  = flat_map (fun ab : string * string => [ab; (ab.2, ab.1)]) (map (fun p2 => (p1, p2)) p2s).
Proof. induction p2s as [|p2 p2s IH]; simpl; by rewrite ?IH. Qed.

(** C6: the work list is the cartesian product of the first identifiers with
    the second ones in list order; without [skip_reverse] every forward pair
    is directly followed by its reverse.  [["A"]] against [["B"]] yields
    [(A,B),(B,A)], and [(A,B)] alone with [skip_reverse]. *)
Theorem pair_generation_order (p1s p2s : list string) :
  pairs_to_query p1s p2s true = list_prod p1s p2s ∧
  pairs_to_query p1s p2s false
    = flat_map (fun ab : string * string => [ab; (ab.2, ab.1)]) (list_prod p1s p2s) ∧
  pairs_to_query ["A"] ["B"] false = [("A", "B"); ("B", "A")] ∧
  pairs_to_query ["A"] ["B"] true = [("A", "B")].
Proof.
  repeat split; unfold pairs_to_query.
  - induction p1s as [|p1 p1s IH]; [done|].
    cbn [flat_map list_prod]. by rewrite IH, pairs_forward.
  - induction p1s as [|p1 p1s IH]; [done|].
    cbn [flat_map list_prod]. by rewrite IH, flat_map_app, pairs_interleaved.
Qed.

(** C7: without a local PubTator copy, a work list of more than 100 pairs
    makes [predict] print the message and exit with status 1; no model is
    loaded, no evidence is retrieved, nothing is scored and no file is
    touched. *)
Theorem oversized_remote_query env args w mp1 mp2 pairs w1 :
  resolve_pairs env args w = (inr (mp1, mp2, pairs), w1) →
  Args.pubtator args = None →
  100 < length pairs →
  ∃ w', predict env args w = (inl (SystemExit 1), w') ∧
        stdout w' = stdout w ++ [cap_message (length pairs)] ∧
        events w' = events w ∧ fs w' = fs w ∧ buffers w' = buffers w.
Proof.
  intros Hres Hpub Hlen.
  pose proof (readonly_resolve_pairs _ _ _ _ _ Hres) as ->.
  eexists. split.
  - unfold predict. rewrite (bind_ok _ _ _ _ _ Hres). cbn [fst snd].
    unfold run_pairs, check_cap. rewrite Hpub.
    rewrite (proj2 (Nat.ltb_lt _ _) Hlen). simpl. reflexivity.
  - done.
Qed.

End PairFacts.

Lemma oversized_remote_query_witness :
  ∃ w', Predict.predict CapExample.env CapExample.args CapExample.w0
        = (inl (SystemExit 1), w') ∧
        stdout w' = [Predict.cap_message 220] ∧ events w' = [].
Proof.
  destruct (oversized_remote_query CapExample.env CapExample.args CapExample.w0
              (Args.p1 CapExample.args) (Args.p2 CapExample.args)
              (Predict.pairs_to_query (Args.p1 CapExample.args)
                 (Args.p2 CapExample.args) false)
              CapExample.w0)
    as (w' & H1 & H2 & H3 & _).
  - vm_compute. reflexivity.
  - reflexivity.
  - vm_compute. lia.
  - exists w'. split; [exact H1|]. split; [exact H2 | exact H3].
Defined.

(** ** Crawl partitioning *)

Section PartitionFacts.
Import Crawl.

Lemma insert_str_perm x l : Permutation (Py.insert_str x l) (x :: l).
Proof.
  induction l as [|y l IH]; simpl; [done|].
  destruct (String.leb x y); [done|].
  rewrite IH. apply perm_swap.
Qed.

Lemma sorted_perm l : Permutation (Py.sorted l) l.
Proof.
  induction l as [|x l IH]; simpl; [done|].
  by rewrite insert_str_perm, IH.
Qed.

Lemma crawl_order_NoDup m : NoDup (crawl_order m).
Proof. unfold crawl_order. rewrite sorted_perm. apply NoDup_elements. Qed.

Lemma crawl_order_elem m pmid : pmid ∈ crawl_order m ↔ is_Some (m !! pmid).
Proof.
  unfold crawl_order. rewrite sorted_perm, elem_of_elements. apply elem_of_dom.
Qed.

Lemma enumerate_from_lookup {A} (l : list A) k p x :
  (p, x) ∈ Py.enumerate_from k l ↔ k ≤ p ∧ l !! (p - k) = Some x.
Proof.
  revert k. induction l as [|y l IH]; intros k; simpl.
  - rewrite elem_of_nil. split; [done|]. intros [_ H]. by destruct (p - k).
  - rewrite elem_of_cons, IH. split.
    + intros [[= ? ?]|[H1 H2]].
      * subst. split; [lia|]. by replace (k - k) with 0 by lia.
      * split; [lia|]. by replace (p - k) with (S (p - S k)) by lia.
    + intros [H1 H2]. destruct (decide (p = k)) as [->|Hne].
      * left. replace (k - k) with 0 in H2 by lia. simpl in H2. by inversion H2.
      * right. split; [lia|].
        by replace (p - k) with (S (p - S k)) in H2 by lia.
Qed.

Lemma elem_of_assigned args order pmid :
  pmid ∈ assigned args order ↔
  ∃ p, order !! p = Some pmid ∧ skips args p = Some false.
Proof.
  unfold assigned. rewrite list_elem_of_omap. split.
  - intros ([p x] & Hin & Hs). apply enumerate_from_lookup in Hin as [_ Hin].
    replace (p - 0) with p in Hin by lia. simpl in Hs.
    destruct (skips args p) as [[|]|] eqn:E; inversion Hs; subst. eauto.
  - intros (p & Hp & Hs). exists (p, pmid). split.
    + apply enumerate_from_lookup. split; [lia|]. by replace (p - 0) with p by lia.
    + simpl. by rewrite Hs.
Qed.

Lemma skips_positive args p :
  (0 < TrainArgs.n_worker args)%Z →
  skips args p
  = Some (negb (Z.of_nat p mod TrainArgs.n_worker args =? TrainArgs.worker_id args)%Z).
Proof.
  intros HN. unfold skips, Py.mod_.
  destruct (Z.eqb_spec (TrainArgs.n_worker args) 0); [lia|done].
Qed.


Lemma crawl_pmid_skipped ord pv bufsize args f fb tb m p pmid w :
  skips args p = Some true →
  crawl_pmid ord pv bufsize args f fb tb m (p, pmid) w = (inr tt, w).
Proof. intros H. unfold crawl_pmid. by rewrite H. Qed.




End PartitionFacts.

(** ** Files *)

Section FileFacts.
Import IO.

Lemma frame_refl p w : frame p w w.
Proof. by repeat split. Qed.

Lemma frame_content p q w w' : frame p w w' → q ≠ p → content w' q = content w q.
Proof. intros [H _] Hq. unfold content. by destruct (H q Hq) as [-> ->]. Qed.

Lemma content_Some w p c :
  content w p = Some c ↔
  ∃ c1 b, fs w !! p = Some c1 ∧ buffers w !! p = Some b ∧ c = c1 ++ b.
Proof.
  unfold content. split.
  - destruct (fs w !! p) as [c1|]; [|done]. destruct (buffers w !! p) as [b|]; [|done].
    simpl. intros [= <-]. eauto.
  - intros (c1 & b & -> & -> & ->). done.
Qed.

Lemma open_w_spec p w :
  ∃ w', open_w p w = (inr tt, w') ∧ fs w' !! p = Some [] ∧
        buffers w' !! p = Some [] ∧ content w' p = Some [] ∧ frame p w w'.
Proof.
  eexists. split; [reflexivity|]. unfold content, frame. simpl.
  rewrite !lookup_insert_eq. repeat split; try done.
  all: by rewrite lookup_insert_ne.
Qed.

Lemma write_spec n p s w c :
  content w p = Some c →
  ∃ w', write n p s w = (inr tt, w') ∧ content w' p = Some (c ++ [s]) ∧ frame p w w'.
Proof.
  intros (c1 & b & Hc & Hb & ->)%content_Some.
  unfold write. rewrite Hb. simpl.
  destruct (n <=? size (b ++ [s])).
  - unfold flush. simpl. rewrite lookup_insert_eq, Hc.
    eexists. split; [reflexivity|]. unfold content, frame. simpl.
    rewrite !lookup_insert_eq. simpl. split; [by rewrite app_nil_r, app_assoc|].
    repeat split; try done; by rewrite !lookup_insert_ne.
  - eexists. split; [reflexivity|]. unfold content, frame. simpl.
    rewrite Hc, lookup_insert_eq. simpl. split; [by rewrite app_assoc|].
    repeat split; try done; by rewrite lookup_insert_ne.
Qed.

Lemma close_spec p w c :
  content w p = Some c →
  ∃ w', close p w = (inr tt, w') ∧ fs w' !! p = Some c ∧
        buffers w' !! p = None ∧ frame p w w'.
Proof.
  intros (c1 & b & Hc & Hb & ->)%content_Some.
  unfold close, flush. rewrite Hb, Hc. simpl.
  eexists. split; [reflexivity|]. unfold frame. simpl.
  rewrite lookup_insert_eq, lookup_delete_eq. repeat split; try done.
  - by rewrite lookup_insert_ne.
  - by rewrite lookup_delete_ne, lookup_insert_ne.
Qed.

End FileFacts.

(** ** The crawl writes its two shards in lock step *)

Section CrawlFacts.
Import IO Crawl.

Lemma log_spec e w :
  ∃ w', log e w = (inr tt, w') ∧ fs w' = fs w ∧ buffers w' = buffers w ∧
        stdout w' = stdout w ∧ events w' = events w ++ [e].
Proof. eexists. split; [reflexivity|]. done. Qed.

Lemma log_content e w w' p : log e w = (inr tt, w') → content w' p = content w p.
Proof. intros [= <-]. done. Qed.

Lemma write_lines_spec {A} n f fb (raw bl : A → string) (l : list A) w cr cb :
  f ≠ fb → content w f = Some cr → content w fb = Some cb →
  ∃ w', for_each l (fun x => _ ← write n f (raw x); write n fb (bl x)) w = (inr tt, w') ∧
        content w' f = Some (cr ++ (raw <$> l)) ∧
        content w' fb = Some (cb ++ (bl <$> l)).
Proof.
  intros Hne. revert w cr cb. induction l as [|x l IH]; intros w cr cb Hf Hfb.
  - exists w. simpl. by rewrite !app_nil_r.
  - destruct (write_spec n f (raw x) w cr Hf) as (w1 & Hw1 & Hc1 & Hfr1).
    assert (content w1 fb = Some cb) as Hfb1.
    { rewrite (frame_content f fb w w1); done. }
    destruct (write_spec n fb (bl x) w1 cb Hfb1) as (w2 & Hw2 & Hc2 & Hfr2).
    assert (content w2 f = Some (cr ++ [raw x])) as Hf2.
    { rewrite (frame_content fb f w1 w2); done. }
    destruct (IH w2 _ _ Hf2 Hc2) as (w' & Hrun & Hcf & Hcfb).
    exists w'. split; [|split].
    + cbn [for_each]. unfold bind at 1.
      change ((_ ← write n f (raw x); write n fb (bl x)) w)
        with ((write n f (raw x) ≫= fun _ => write n fb (bl x)) w).
      rewrite (bind_ok _ _ _ _ _ Hw1), Hw2. exact Hrun.
    + rewrite Hcf. by rewrite <- app_assoc.
    + rewrite Hcfb. by rewrite <- app_assoc.
Qed.

Lemma write_pair_spec ord pv n f fb tb doc pair w cr cb :
  f ≠ fb → content w f = Some cr → content w fb = Some cb →
  ∃ w', write_pair ord pv n f fb tb doc pair w = (inr tt, w') ∧
        content w' f = Some (cr ++ (raw_line ord <$> pair_records pv tb doc pair)) ∧
        content w' fb = Some (cb ++ (blinded_line ord <$> pair_records pv tb doc pair)).
Proof.
  intros Hne Hf Hfb. destruct pair as [head tail]. unfold write_pair, pair_records.
  cbn [fst snd]. rewrite <- !list_fmap_compose.
  by apply write_lines_spec.
Qed.

Lemma write_pairs_spec ord pv n f fb tb doc pairs w cr cb :
  f ≠ fb → content w f = Some cr → content w fb = Some cb →
  ∃ w', for_each pairs (write_pair ord pv n f fb tb doc) w = (inr tt, w') ∧
        content w' f = Some (cr ++ (raw_line ord <$> flat_map (pair_records pv tb doc) pairs)) ∧
        content w' fb = Some (cb ++ (blinded_line ord <$> flat_map (pair_records pv tb doc) pairs)).
Proof.
  intros Hne. revert w cr cb. induction pairs as [|pair pairs IH]; intros w cr cb Hf Hfb.
  - exists w. simpl. by rewrite !app_nil_r.
  - destruct (write_pair_spec ord pv n f fb tb doc pair w cr cb Hne Hf Hfb)
      as (w1 & Hw1 & Hf1 & Hfb1).
    destruct (IH w1 _ _ Hf1 Hfb1) as (w' & Hrun & Hcf & Hcfb).
    exists w'. split; [|split].
    + cbn [for_each]. unfold bind. by rewrite Hw1.
    + rewrite Hcf. cbn [flat_map]. by rewrite fmap_app, app_assoc.
    + rewrite Hcfb. cbn [flat_map]. by rewrite fmap_app, app_assoc.
Qed.

Lemma crawl_pmid_spec ord pv n args f fb tb m ip w cr cb :
  f ≠ fb → content w f = Some cr → content w fb = Some cb →
  ∃ w',
    match pmid_records ord pv args tb m ip with
    | inl e =>
        crawl_pmid ord pv n args f fb tb m ip w = (inl e, w') ∧
        content w' f = Some cr ∧ content w' fb = Some cb
    | inr rs =>
        crawl_pmid ord pv n args f fb tb m ip w = (inr tt, w') ∧
        content w' f = Some (cr ++ (raw_line ord <$> rs)) ∧
        content w' fb = Some (cb ++ (blinded_line ord <$> rs))
    end.
Proof.
  intros Hne Hf Hfb. destruct ip as [i pmid].
  unfold pmid_records, crawl_pmid. cbn [fst snd].
  destruct (skips args i) as [[|]|].
  - exists w. simpl. by rewrite !app_nil_r.
  - destruct (log_spec (EvGetDocuments [pmid]) w) as (w1 & Hlog & _).
    pose proof (log_content _ _ _ f Hlog) as Hf1.
    pose proof (log_content _ _ _ fb Hlog) as Hfb1.
    rewrite Hf in Hf1. rewrite Hfb in Hfb1.
    rewrite (bind_ok _ _ _ _ _ Hlog).
    destruct (get_documents pv [pmid]) as [|[|doc docs] rest].
    + by exists w1.
    + exists w1. simpl. by rewrite !app_nil_r.
    + by apply write_pairs_spec.
  - by exists w.
Qed.

Lemma crawl_loop_spec ord pv n args f fb tb m l w cr cb :
  f ≠ fb → content w f = Some cr → content w fb = Some cb →
  ∃ w',
    for_each l (crawl_pmid ord pv n args f fb tb m) w
      = (outcome (crawl_records ord pv args tb m l).2, w') ∧
    content w' f = Some (cr ++ (raw_line ord <$> (crawl_records ord pv args tb m l).1)) ∧
    content w' fb = Some (cb ++ (blinded_line ord <$> (crawl_records ord pv args tb m l).1)).
Proof.
  intros Hne. revert w cr cb. induction l as [|ip l IH]; intros w cr cb Hf Hfb.
  - exists w. simpl. by rewrite !app_nil_r.
  - destruct (crawl_pmid_spec ord pv n args f fb tb m ip w cr cb Hne Hf Hfb)
      as (w1 & H1).
    cbn [crawl_records for_each]. unfold bind.
    destruct (pmid_records ord pv args tb m ip) as [e|rs].
    + destruct H1 as (-> & Hf1 & Hfb1). exists w1. simpl. by rewrite !app_nil_r.
    + destruct H1 as (-> & Hf1 & Hfb1).
      destruct (IH w1 _ _ Hf1 Hfb1) as (w' & Hrun & Hcf & Hcfb).
      exists w'. cbn [fst snd]. split; [done|].
      by rewrite Hcf, Hcfb, !fmap_app, !app_assoc.
Qed.

Lemma with_open_spec {A} p (body : M A) w w1 r w2 c :
  open_w p w = (inr tt, w1) → body w1 = (r, w2) → content w2 p = Some c →
  ∃ w', with_open p body w = (r, w') ∧ fs w' !! p = Some c ∧ frame p w2 w'.
Proof.
  intros Hopen Hbody Hc.
  destruct (close_spec p w2 c Hc) as (w' & Hclose & Hfs & _ & Hfr).
  exists w'. split; [|done].
  unfold with_open. rewrite (bind_ok _ _ _ _ _ Hopen).
  unfold try_finally. by rewrite Hbody, Hclose.
Qed.

(** The two shard files after the crawl: the raw and the blinded rendering
    of one and the same list of records. *)
Lemma crawl_spec ord pv n args tb w :
  let m := pmid_to_pairs pv tb in
  let f := shard_path (TrainArgs.out args) (TrainArgs.worker_id args) in
  let fb := shard_path (TrainArgs.out_blinded args) (TrainArgs.worker_id args) in
  let recs := crawl_records ord pv args tb m (Py.enumerate (crawl_order m)) in
  f ≠ fb →
  ∃ w', crawl ord pv n args tb w = (outcome recs.2, w') ∧
        fs w' !! f = Some (raw_line ord <$> recs.1) ∧
        fs w' !! fb = Some (blinded_line ord <$> recs.1).
Proof.
  intros m f fb recs Hne. unfold crawl. fold m f fb.
  destruct (log_spec (EvDataGetter (chemical_universe tb ∪ gene_universe tb)) w)
    as (w0 & Hlog & _).
  rewrite (bind_ok _ _ _ _ _ Hlog).
  destruct (open_w_spec f w0) as (w1 & Ho1 & _ & _ & Hc1 & _).
  destruct (open_w_spec fb w1) as (w2 & Ho2 & _ & _ & Hc2 & Hfr2).
  assert (content w2 f = Some []) as Hc1'.
  { by rewrite (frame_content fb f w1 w2). }
  destruct (crawl_loop_spec ord pv n args f fb tb m
              (Py.enumerate (crawl_order m)) w2 [] [] Hne Hc1' Hc2)
    as (w3 & Hloop & Hf3 & Hfb3).
  fold recs in Hloop, Hf3, Hfb3. simpl in Hf3, Hfb3.
  destruct (with_open_spec fb _ w1 w2 _ w3 _ Ho2 Hloop Hfb3) as (w4 & Hin & Hfs4 & Hfr4).
  assert (content w4 f = Some (raw_line ord <$> recs.1)) as Hf4.
  { by rewrite (frame_content fb f w3 w4). }
  destruct (with_open_spec f _ w0 w1 _ w4 _ Ho1 Hin Hf4) as (w5 & Hout & Hfs5 & Hfr5).
  exists w5. split; [done|]. split; [done|].
  destruct Hfr5 as [Hfr5 _]. destruct (Hfr5 fb) as [-> _]; [by intros ->|done].
Qed.

End CrawlFacts.

Section ShardFacts.
Import IO Crawl.

Lemma string_length_app (s t : string) :
  String.length (s +:+ t) = String.length s + String.length t.
Proof. induction s as [|a s IH]; simpl; by rewrite ?IH. Qed.

Lemma string_app_inj_r (s1 s2 t : string) : s1 +:+ t = s2 +:+ t → s1 = s2.
Proof.
  revert s2. induction s1 as [|a s1 IH]; intros [|c s2]; simpl; intros H.
  - done.
  - apply (f_equal String.length) in H.
    rewrite !string_length_app in H. simpl in H. lia.
  - apply (f_equal String.length) in H.
    rewrite !string_length_app in H. simpl in H. lia.
  - injection H as -> H. f_equal. by apply IH.
Qed.

Lemma shard_path_inj out1 out2 w : shard_path out1 w = shard_path out2 w → out1 = out2.
Proof. unfold shard_path. apply string_app_inj_r. Qed.

Lemma readonly_foldM {A S} (body : S → A → M S) (l : list A) s :
  (∀ s a, readonly (body s a)) → readonly (foldM body s l).
Proof.
  intros Hb. revert s. induction l as [|a l IH]; intros s; simpl.
  - apply readonly_ret.
  - apply readonly_bind; [apply Hb|]. intros s'. apply IH.
Qed.

Lemma readonly_add_to_universe e tb : readonly (add_to_universe e tb).
Proof.
  unfold add_to_universe. repeat case_bool_decide.
  all: first [apply readonly_ret | apply readonly_raise].
Qed.

Lemma readonly_add_triple tb l : readonly (add_triple tb l).
Proof.
  unfold add_triple. apply readonly_bind.
  - unfold parse_triple.
    destruct (Py.split Predict.TABc (Py.strip l)) as [|? [|? [|? [|? [|? [|? ?]]]]]].
    all: first [apply readonly_ret | apply readonly_raise].
  - intros [[head tail] rel].
    apply readonly_bind; [apply readonly_add_to_universe|].
    intros tb2. apply readonly_add_to_universe.
Qed.

Lemma readonly_load_tables args : readonly (load_tables args).
Proof.
  unfold load_tables. apply readonly_bind; [apply readonly_read|].
  intros c. apply readonly_foldM. apply readonly_add_triple.
Qed.

(** *** Reading a shard back: lines, then tab-separated fields *)

Lemma string_app_cons a (s t : string) : String a s +:+ t = String a (s +:+ t).
Proof. reflexivity. Qed.

Lemma string_app_nil_r (s : string) : s +:+ "" = s.
Proof. induction s as [|a s IH]; [done|]. by rewrite string_app_cons, IH. Qed.
















End ShardFacts.

(** ** Determinism of the crawl *)

Section DeterminismFacts.
Import IO Crawl.

Lemma constant_ret {A} (a : A) : constant (mret a).
Proof. by exists (inr a). Qed.

Lemma constant_raise {A} e : constant (raise e : M A).
Proof. by exists (inl e). Qed.

Lemma constant_bind {A B} (m : M A) (k : A → M B) :
  constant m → (∀ a, constant (k a)) → constant (m ≫= k).
Proof.
  intros [[e|a] Hm] Hk.
  - exists (inl e). intros w. by rewrite bind_unfold, Hm.
  - destruct (Hk a) as [r Hr]. exists r. intros w. by rewrite bind_unfold, Hm.
Qed.

Lemma constant_foldM {A S} (body : S → A → M S) (l : list A) s :
  (∀ s a, constant (body s a)) → constant (foldM body s l).
Proof.
  intros Hb. revert s. induction l as [|a l IH]; intros s; simpl.
  - apply constant_ret.
  - apply constant_bind; [apply Hb|]. intros s'. apply IH.
Qed.

Lemma constant_add_to_universe e tb : constant (add_to_universe e tb).
Proof.
  unfold add_to_universe. repeat case_bool_decide.
  all: first [apply constant_ret | apply constant_raise].
Qed.

Lemma constant_add_triple tb l : constant (add_triple tb l).
Proof.
  unfold add_triple. apply constant_bind.
  - unfold parse_triple.
    destruct (Py.split Predict.TABc (Py.strip l)) as [|? [|? [|? [|? [|? [|? ?]]]]]].
    all: first [apply constant_ret | apply constant_raise].
  - intros [[head tail] rel].
    apply constant_bind; [apply constant_add_to_universe|].
    intros tb2. apply constant_add_to_universe.
Qed.

(** The tables depend on the triples file alone. *)
Lemma load_tables_same_triples args w1 w2 r w1' :
  fs w2 !! TrainArgs.triples args = fs w1 !! TrainArgs.triples args →
  load_tables args w1 = (r, w1') → load_tables args w2 = (r, w2).
Proof.
  intros Hfs. unfold load_tables. rewrite !bind_unfold. unfold read. rewrite Hfs.
  destruct (fs w1 !! TrainArgs.triples args) as [c|].
  - destruct (constant_foldM add_triple (file_lines (String.concat "" c))
                {| pair_to_relations := ∅; pair_order := [];
                   gene_universe := ∅; chemical_universe := ∅ |}
                constant_add_triple) as [r' Hr'].
    rewrite !Hr'. by intros [= <- _].
  - by intros [= <- _].
Qed.

Lemma raw_line_ext ord1 ord2 tb (r : record) :
  (∀ pair, iter_relations ord1 (default ∅ (pair_to_relations tb !! pair))
           = iter_relations ord2 (default ∅ (pair_to_relations tb !! pair))) →
  (∃ pair, r.1.2 = default ∅ (pair_to_relations tb !! pair)) →
  raw_line ord1 r = raw_line ord2 r ∧ blinded_line ord1 r = blinded_line ord2 r.
Proof.
  intros Hrel [pair Hr]. destruct r as [[[head tail] rels] s]. simpl in Hr. subst rels.
  unfold raw_line, blinded_line, raw_fields, blinded_fields, fields.
  by rewrite Hrel.
Qed.

Lemma pair_records_rels pv tb doc pair r :
  r ∈ pair_records pv tb doc pair →
  ∃ pair', r.1.2 = default ∅ (pair_to_relations tb !! pair').
Proof.
  unfold pair_records. intros (s & -> & _)%list_elem_of_fmap.
  exists (pair.1, pair.2). done.
Qed.

Lemma pmid_records_rels ord pv args tb m ip rs r :
  pmid_records ord pv args tb m ip = inr rs → r ∈ rs →
  ∃ pair, r.1.2 = default ∅ (pair_to_relations tb !! pair).
Proof.
  unfold pmid_records. destruct (skips args ip.1) as [[|]|]; try done.
  - intros [= <-]. by intros ?%elem_of_nil.
  - destruct (get_documents pv [ip.2]) as [|[|doc docs] rest]; try done.
    + intros [= <-]. by intros ?%elem_of_nil.
    + intros [= <-]. rewrite list_elem_of_In, in_flat_map.
      intros (pair & _ & Hr). apply list_elem_of_In in Hr.
      by eapply pair_records_rels.
Qed.

Lemma crawl_records_rels ord pv args tb m l r :
  r ∈ (crawl_records ord pv args tb m l).1 →
  ∃ pair, r.1.2 = default ∅ (pair_to_relations tb !! pair).
Proof.
  induction l as [|ip l IH]; simpl.
  - by intros ?%elem_of_nil.
  - destruct (pmid_records ord pv args tb m ip) as [e|rs] eqn:E; simpl.
    + by intros ?%elem_of_nil.
    + rewrite elem_of_app. intros [H|H]; [by eapply pmid_records_rels|by apply IH].
Qed.

Lemma crawl_records_ext ord1 ord2 pv args tb m l :
  (∀ pmid, iter_pairs ord1 (default ∅ (m !! pmid))
           = iter_pairs ord2 (default ∅ (m !! pmid))) →
  crawl_records ord1 pv args tb m l = crawl_records ord2 pv args tb m l.
Proof.
  intros Hp. induction l as [|ip l IH]; [done|].
  simpl. rewrite IH.
  assert (pmid_records ord1 pv args tb m ip = pmid_records ord2 pv args tb m ip) as ->.
  { unfold pmid_records. by rewrite Hp. }
  done.
Qed.

(** C5, as the code has it: the shards are fixed by the triples file, the
    worker arguments, the evidence provider and the order in which the run
    iterates its pair sets and relation sets.  Two runs that agree on these
    end the same way and leave byte-identical raw and blinded shards,
    whatever their buffer sizes and the rest of their file systems. *)
Theorem shards_fixed_by_set_order ord1 ord2 pv n1 n2 args w1 w2 tb w1' :
  TrainArgs.out args ≠ TrainArgs.out_blinded args →
  fs w2 !! TrainArgs.triples args = fs w1 !! TrainArgs.triples args →
  load_tables args w1 = (inr tb, w1') →
  (∀ pmid, iter_pairs ord1 (default ∅ (pmid_to_pairs pv tb !! pmid))
           = iter_pairs ord2 (default ∅ (pmid_to_pairs pv tb !! pmid))) →
  (∀ pair, iter_relations ord1 (default ∅ (pair_to_relations tb !! pair))
           = iter_relations ord2 (default ∅ (pair_to_relations tb !! pair))) →
  ∃ r u1 u2 raw blinded,
    build_training_set ord1 pv n1 args w1 = (r, u1) ∧
    build_training_set ord2 pv n2 args w2 = (r, u2) ∧
    fs u1 !! shard_path (TrainArgs.out args) (TrainArgs.worker_id args) = Some raw ∧
    fs u2 !! shard_path (TrainArgs.out args) (TrainArgs.worker_id args) = Some raw ∧
    fs u1 !! shard_path (TrainArgs.out_blinded args) (TrainArgs.worker_id args)
      = Some blinded ∧
    fs u2 !! shard_path (TrainArgs.out_blinded args) (TrainArgs.worker_id args)
      = Some blinded.
Proof.
  intros Hout Hfs Hload Hpairs Hrels.
  pose proof (load_tables_same_triples _ _ _ _ _ Hfs Hload) as Hload2.
  pose proof (readonly_load_tables _ _ _ _ Hload) as ->.
  assert (shard_path (TrainArgs.out args) (TrainArgs.worker_id args)
          ≠ shard_path (TrainArgs.out_blinded args) (TrainArgs.worker_id args)) as Hne.
  { intros H. by apply shard_path_inj in H. }
  destruct (crawl_spec ord1 pv n1 args tb w1 Hne) as (u1 & Hrun1 & Hf1 & Hfb1).
  destruct (crawl_spec ord2 pv n2 args tb w2 Hne) as (u2 & Hrun2 & Hf2 & Hfb2).
  rewrite <- (crawl_records_ext ord1 ord2) in Hrun2, Hf2, Hfb2 by done.
  set (recs := crawl_records ord1 pv args tb (pmid_to_pairs pv tb)
                 (Py.enumerate (crawl_order (pmid_to_pairs pv tb)))) in *.
  assert (raw_line ord2 <$> recs.1 = raw_line ord1 <$> recs.1
          ∧ blinded_line ord2 <$> recs.1 = blinded_line ord1 <$> recs.1) as [Hr Hb].
  { split; apply list_fmap_ext; intros i r Hr;
      apply list_elem_of_lookup_2, crawl_records_rels in Hr;
      destruct (raw_line_ext ord1 ord2 tb r Hrels Hr) as [E1 E2]; congruence. }
  rewrite Hr in Hf2. rewrite Hb in Hfb2.
  exists (outcome recs.2), u1, u2, (raw_line ord1 <$> recs.1),
         (blinded_line ord1 <$> recs.1).
  unfold build_training_set.
  rewrite (bind_ok _ _ _ _ _ Hload), (bind_ok _ _ _ _ _ Hload2).
  done.
Qed.

End DeterminismFacts.

(** C5 does not hold as stated: runs with different iteration orders of the
    relation sets write different bytes, so identical triples and worker
    arguments do not fix the shard. *)
Lemma build_training_set_order_dependent :
  (∀ R, iter_relations CrawlExample.ascending R ≡ₚ elements R) ∧
  (∀ R, iter_relations CrawlExample.descending R ≡ₚ elements R) ∧
  fs (Crawl.build_training_set CrawlExample.ascending CrawlExample.pv IO.DEFAULT_BUFFER_SIZE
        CrawlExample.args CrawlExample.w0).2 !! "train.1"
  ≠ fs (Crawl.build_training_set CrawlExample.descending CrawlExample.pv IO.DEFAULT_BUFFER_SIZE
          CrawlExample.args CrawlExample.w0).2 !! "train.1".
Proof.
  split; [|split].
  - intros R. apply sorted_perm.
  - intros R. simpl. by rewrite reverse_Permutation, sorted_perm.
  - vm_compute. discriminate.
Qed.

Lemma shards_fixed_by_set_order_witness :
  ∃ r u1 u2 raw blinded,
    Crawl.build_training_set CrawlExample.ascending CrawlExample.pv 0
      CrawlExample.args CrawlExample.w0 = (r, u1) ∧
    Crawl.build_training_set CrawlExample.ascending CrawlExample.pv IO.DEFAULT_BUFFER_SIZE
      CrawlExample.args CrawlExample.w0 = (r, u2) ∧
    fs u1 !! "train.1" = Some raw ∧ fs u2 !! "train.1" = Some raw ∧
    fs u1 !! "train_blinded.1" = Some blinded ∧
    fs u2 !! "train_blinded.1" = Some blinded.
Proof.
  apply (shards_fixed_by_set_order CrawlExample.ascending CrawlExample.ascending
           CrawlExample.pv 0 IO.DEFAULT_BUFFER_SIZE CrawlExample.args CrawlExample.w0 CrawlExample.w0
           CrawlExample.tb CrawlExample.w0).
  - discriminate.
  - reflexivity.
  - vm_compute. reflexivity.
  - reflexivity.
  - reflexivity.
Defined.



(** ** Batches *)

Section ChunkFacts.
Context {A : Type}.
Implicit Types (l : list A) (n fuel : nat).

Lemma chunks_fuel_concat n fuel l :
  0 < n → length l ≤ fuel → concat (chunks_fuel fuel l n) = l.
Proof.
  intros Hn. revert l. induction fuel as [|fuel IH]; intros l Hl.
  - destruct l; [done|simpl in Hl; lia].
  - destruct l as [|x t]; [done|].
    cbn [chunks_fuel concat]. rewrite IH.
    + apply take_drop.
    + rewrite length_drop. simpl in *. lia.
Qed.

Lemma chunks_fuel_sizes n fuel l :
  0 < n → Forall (fun c => 0 < length c ≤ n) (chunks_fuel fuel l n).
Proof.
  intros Hn. revert l. induction fuel as [|fuel IH]; intros l; [constructor|].
  destruct l as [|x t]; [constructor|].
  cbn [chunks_fuel]. constructor; [|apply IH].
  rewrite length_take. simpl. lia.
Qed.

Lemma chunks_positive l n :
  0 < n →
  ∃ cs, chunks l n = Some cs ∧ concat cs = l ∧ Forall (fun c => 0 < length c ≤ n) cs.
Proof.
  intros Hn. exists (chunks_fuel (length l) l n). unfold chunks.
  destruct (Nat.eqb_spec n 0); [lia|].
  split; [done|]. split; [by apply chunks_fuel_concat|by apply chunks_fuel_sizes].
Qed.

Lemma chunks_fuel_nonempty n fuel l :
  l ≠ [] → 0 < fuel → chunks_fuel fuel l n ≠ [].
Proof. intros Hl Hf. destruct fuel; [lia|]. by destruct l. Qed.

End ChunkFacts.


Section BatchedFacts.
Import Bert.
Variable forward : list (list nat) → list (list nat) → list Q * meta.

Lemma index_select_seq {A} (t : list A) a j :
  a + j ≤ length t → index_select t (seq a j) = Some (take j (drop a t)).
Proof.
  unfold index_select. revert a. induction j as [|j IH]; intros a Ha.
  - done.
  - destruct (lookup_lt_is_Some_2 t a) as [x Hx]; [lia|].
    cbn [seq mapM]. rewrite Hx. simpl. rewrite IH by lia. simpl.
    by rewrite (drop_S _ _ _ Hx).
Qed.

Lemma batched_outs n fuel (ids mask : list (list nat)) a k :
  length mask = length ids → k = length ids - a →
  mapM (fun indices_batch =>
          input_ids_batch ← index_select ids indices_batch;
          attention_mask_batch ← index_select mask indices_batch;
          Some (forward input_ids_batch attention_mask_batch))
       (chunks_fuel fuel (seq a k) n)
  = Some (zip_with forward (chunks_fuel fuel (drop a ids) n)
                           (chunks_fuel fuel (drop a mask) n)).
Proof.
  intros Hm. revert a k. induction fuel as [|fuel IH]; intros a k ->; [done|].
  destruct (decide (length ids ≤ a)) as [Hge|Hlt].
  - replace (length ids - a) with 0 by lia.
    rewrite !drop_ge by lia. done.
  - destruct (length ids - a) as [|k'] eqn:Hk; [lia|].
    destruct (lookup_lt_is_Some_2 ids a) as [x Hx]; [lia|].
    destruct (lookup_lt_is_Some_2 mask a) as [y Hy]; [lia|].
    rewrite (drop_S _ _ _ Hx), (drop_S _ _ _ Hy).
    cbn [seq chunks_fuel]. rewrite <- (drop_S _ _ _ Hx), <- (drop_S _ _ _ Hy).
    change (a :: seq (S a) k') with (seq a (S k')).
    rewrite take_seq, drop_seq, !drop_drop.
    cbn [mapM]. rewrite !index_select_seq by lia. simpl.
    rewrite (IH (a + n) (S k' - n)) by lia. simpl.
    rewrite <- !take_take.
    rewrite (take_ge (drop a ids) (S k')) by (rewrite length_drop; lia).
    rewrite (take_ge (drop a mask) (S k')) by (rewrite length_drop; lia).
    done.
Qed.

End BatchedFacts.

(** ** The scoring loop *)

Section ScoringFacts.
Import IO Predict.

Lemma add_events_nil w : add_events w [] = w.
Proof. destruct w. unfold add_events. simpl. by rewrite app_nil_r. Qed.

Lemma add_events_app w e1 e2 :
  add_events (add_events w e1) e2 = add_events w (e1 ++ e2).
Proof. unfold add_events. simpl. by rewrite app_assoc. Qed.

Lemma score_batches_spec env (batches : list (list Sentence)) ps w :
  foldM (fun ps sentences_batch =>
           let blinded := text_blinded <$> sentences_batch in
           _ ← log (EvModel blinded);
           mret (ps ++ [scores env blinded])) ps batches w
  = (inr (ps ++ (score_of env <$> batches)),
     add_events w ((fun b => EvModel (text_blinded <$> b)) <$> batches)).
Proof.
  revert ps w. induction batches as [|b batches IH]; intros ps w.
  - simpl. by rewrite app_nil_r, add_events_nil.
  - cbn [foldM]. unfold bind at 1. rewrite bind_unfold. unfold log at 1.
    cbn [mret M_ret ret]. rewrite IH, add_events_app.
    by rewrite <- app_assoc.
Qed.


(** The loop of lines 146-162 computes [gather_from] and only logs. *)
Lemma score_loop_gather env args st l w :
  0 < Args.batch_size args →
  ∃ st' evs,
    gather_from env args st l = Some st' ∧
    foldM (score_chunk env args) st l w = (inr st', add_events w evs).
Proof.
  intros Hn. revert st w. induction l as [|c l IH]; intros st w.
  - exists st, []. by rewrite add_events_nil.
  - cbn [gather_from foldM]. unfold gather_chunk, score_chunk, bind.
    destruct (chunks_positive (keep_new (processed_sentences st) c) _ Hn)
      as (cs & -> & _ & _).
    rewrite bind_unfold, score_batches_spec. cbn [mret M_ret ret mbind option_bind].
    edestruct IH as (st' & evs & -> & ->).
    exists st'. eexists. split; [done|]. by rewrite add_events_app.
Qed.

End ScoringFacts.

Section OrderFacts.
Import IO Predict Bert.

Lemma cat_nonempty {A} (ts : list (list A)) : ts ≠ [] → Torch.cat ts = Some (concat ts).
Proof. by destruct ts. Qed.






End OrderFacts.

(** ** Invariants of effectful code *)

Section InvariantFacts.
Import IO.

Lemma all_lines_open_w good p w r w' :
  open_w p w = (r, w') → all_lines good p w'.
Proof.
  intros [= <- <-]. split; simpl; intros c; rewrite lookup_insert_eq;
    intros [= <-]; constructor.
Qed.

Lemma all_lines_log good p e : preserves (all_lines good p) (log e).
Proof. intros w r w' HI [= <- <-]. done. Qed.

Lemma all_lines_flush good p : preserves (all_lines good p) (flush p).
Proof.
  intros w r w' HI. unfold flush.
  destruct (buffers w !! p) as [b|] eqn:Eb; [|by intros [= <- <-]].
  destruct HI as [Hfs Hb]. intros [= <- <-]. split; simpl.
  - intros c. destruct (fs w !! p) as [c0|] eqn:Ec.
    + rewrite lookup_insert_eq. intros [= <-]. apply Forall_app. split; auto.
    + rewrite Ec. done.
  - intros b'. rewrite lookup_insert_eq. intros [= <-]. constructor.
Qed.

Lemma all_lines_write good n p s : good s → preserves (all_lines good p) (write n p s).
Proof.
  intros Hs w r w' HI. pose proof HI as [Hfs Hb]. unfold write.
  set (b := default [] (buffers w !! p) ++ [s]).
  set (w1 := {| fs := fs w; buffers := <[p:=b]> (buffers w);
                stdout := stdout w; events := events w |}).
  assert (all_lines good p w1) as H1.
  { split; simpl; [done|]. intros b'. rewrite lookup_insert_eq. intros [= <-].
    unfold b. apply Forall_app. split; [|by constructor].
    destruct (buffers w !! p) as [b0|] eqn:E; simpl; [auto|constructor]. }
  destruct (n <=? size b); [by apply all_lines_flush|].
  by intros [= <- <-].
Qed.

Lemma all_lines_close good p : preserves (all_lines good p) (close p).
Proof.
  intros w r w' HI. unfold close. destruct (flush p w) as [r1 w1] eqn:E.
  pose proof (all_lines_flush good p w r1 w1 HI E) as [H1 H2].
  intros [= <- <-]. split; simpl; [done|].
  intros b. by rewrite lookup_delete_eq.
Qed.

Lemma all_lines_getsize good p : preserves (all_lines good p) (getsize p).
Proof.
  intros w r w' HI. unfold getsize. destruct (fs w !! p); by intros [= <- <-].
Qed.

Lemma all_lines_remove good p : preserves (all_lines good p) (remove p).
Proof.
  intros w r w' HI. unfold remove. destruct (fs w !! p) eqn:E.
  - destruct HI as [H1 H2]. intros [= <- <-]. split; simpl; [|done].
    intros c. by rewrite lookup_delete_eq.
  - by intros [= <- <-].
Qed.

End InvariantFacts.

(** ** What reaches a pair's output file *)

Section OutputFacts.
Import IO Predict.

Lemma preserves_remove_if_empty good p :
  preserves (all_lines good p) (remove_if_empty p).
Proof.
  unfold remove_if_empty.
  apply (preserves_bind _ (getsize p)); [apply all_lines_getsize|].
  intros sz. apply preserves_when, all_lines_remove.
Qed.

Lemma preserves_write_db_results env args path dbs p1 p2 :
  preserves (all_lines (output_line (Args.cutoff args)) path)
    (write_db_results env path dbs p1 p2).
Proof.
  unfold write_db_results. apply preserves_foldM. intros processed db _.
  apply (preserves_bind _ (log _)); [apply all_lines_log|]. intros _.
  apply preserves_foldM. intros processed' stmt _.
  apply (preserves_bind _ (when _ _)); [|intros _; apply preserves_ret].
  apply preserves_when, all_lines_write. left. by exists db, stmt.
Qed.

Lemma preserves_score_chunk good env args path st c :
  preserves (all_lines good path) (score_chunk env args st c).
Proof.
  unfold score_chunk. destruct (chunks _ _); [|apply preserves_raise].
  apply (preserves_bind _ (foldM _ _ _)); [|intros ?; apply preserves_ret].
  apply preserves_foldM. intros ps b _.
  apply (preserves_bind _ (log _)); [apply all_lines_log|].
  intros _. apply preserves_ret.
Qed.

Lemma record_of_score env all c r :
  record_of env all c = Some r → score r = c.2 ∧ source r = "PEDL".
Proof.
  destruct c as [[i j] m]. unfold record_of.
  destruct (all !! i); [|done]. simpl. by intros [= <-].
Qed.

Lemma preserves_rank env args path pr all :
  preserves (all_lines (output_line (Args.cutoff args)) path)
    (rank env args path pr all).
Proof.
  unfold rank. apply preserves_for_each. intros c Hc.
  destruct (record_of env all c) as [r|] eqn:Hr; [|apply preserves_raise].
  apply all_lines_write. right. exists r.
  destruct (record_of_score _ _ _ _ Hr) as [Hs Hsrc].
  split; [done|]. split; [done|]. rewrite Hs. by eapply walk_reaches_cutoff.
Qed.

Lemma preserves_pair_body env args dbs path p1 p2 :
  preserves (all_lines (output_line (Args.cutoff args)) path)
    (pair_body env args dbs path p1 p2).
Proof.
  unfold pair_body.
  apply (preserves_bind _ (write_db_results _ _ _ _ _));
    [apply preserves_write_db_results|]. intros _.
  apply (preserves_bind _ (log _)); [apply all_lines_log|]. intros _.
  apply (preserves_bind _ (foldM _ _ _)).
  { apply preserves_foldM. intros st c _. apply preserves_score_chunk. }
  intros st. destruct (all_sentences st).
  - apply (preserves_bind _ (remove_if_empty _)); [apply preserves_remove_if_empty|].
    intros _. apply preserves_ret.
  - destruct (Torch.cat (probs st)); [|apply preserves_raise].
    destruct (Torch.all_lt _ _).
    + apply (preserves_bind _ (remove_if_empty _)); [apply preserves_remove_if_empty|].
      intros _. apply preserves_ret.
    + apply (preserves_bind _ (rank _ _ _ _ _)); [apply preserves_rank|].
      intros _. apply preserves_ret.
Qed.

(** After a pair is processed, however that ends, its file holds only
    database lines and ranked records at or above the cutoff. *)
Lemma process_pair_lines env args dbs p1 p2 w r w' :
  p1 ≠ p2 → process_pair env args dbs (p1, p2) w = (r, w') →
  all_lines (output_line (Args.cutoff args)) (path_out env args p1 p2) w'.
Proof.
  intros Hne. unfold process_pair. rewrite bool_decide_eq_false_2 by done.
  set (path := path_out env args p1 p2). unfold with_open.
  intros [(e & H & _)|(continued & w2 & H & Hk)]%bind_inv.
  - apply bind_inv in H as [(e' & H & _)|([] & w1 & Ho & H)]; [done|].
    pose proof (all_lines_open_w (output_line (Args.cutoff args)) path _ _ _ Ho) as H1.
    revert H. apply preserves_try_finally; [apply preserves_pair_body|apply all_lines_close|done].
  - apply bind_inv in H as [(e' & H & _)|([] & w1 & Ho & H)]; [done|].
    pose proof (all_lines_open_w (output_line (Args.cutoff args)) path _ _ _ Ho) as H1.
    assert (all_lines (output_line (Args.cutoff args)) path w2) as H2.
    { revert H. apply preserves_try_finally;
        [apply preserves_pair_body|apply all_lines_close|done]. }
    destruct continued.
    + by inversion Hk; subst.
    + revert Hk. by apply preserves_remove_if_empty.
Qed.

(** C2: whatever the run and the pair, every ranked record that reaches the
    pair's output file has a score at or above the cutoff (the only other
    lines of the file are those of the pathway databases); a sorted value
    below the cutoff emits nothing. *)
Theorem emitted_scores_reach_cutoff env args dbs p1 p2 w r w' :
  p1 ≠ p2 → process_pair env args dbs (p1, p2) w = (r, w') →
  (∀ c, fs w' !! path_out env args p1 p2 = Some c →
        Forall (fun s => db_line s ∨ record_line (Args.cutoff args) s) c) ∧
  (∀ probs all c rec, c ∈ Ranker.walk probs (Args.cutoff args) →
        record_of env all c = Some rec → (Args.cutoff args <= score rec)%Q) ∧
  (∀ probs m, (m < Args.cutoff args)%Q →
        Ranker.walk_step probs (Args.cutoff args) m = []).
Proof.
  intros Hne Hrun. split; [|split].
  - by destruct (process_pair_lines _ _ _ _ _ _ _ _ Hne Hrun) as [H _].
  - intros probs all c rec Hc Hr. destruct (record_of_score _ _ _ _ Hr) as [-> _].
    by eapply walk_reaches_cutoff.
  - intros probs m. apply walk_step_below.
Qed.

End OutputFacts.

(** ** Removal of empty output files *)

Section RemovalFacts.
Import IO Predict.

Lemma size_app c1 c2 : size (c1 ++ c2) = size c1 + size c2.
Proof.
  unfold size. induction c1 as [|x c1 IH]; [done|].
  cbn [app fmap list_fmap sum_list sum_list_with] in *.
  change (list_fmap _ _ String.length) with (fmap (M:=list) String.length) in *.
  rewrite IH. unfold id. lia.
Qed.

Lemma remove_if_empty_post p w r w' :
  remove_if_empty p w = (r, w') → r = inr tt → no_empty_file p w'.
Proof.
  unfold remove_if_empty, getsize. rewrite bind_unfold.
  destruct (fs w !! p) as [c|] eqn:Ec; [|by intros [= <- <-]].
  destruct (Nat.eqb_spec (size c) 0) as [Hz|Hnz]; simpl.
  - unfold remove. rewrite Ec. intros [= <- <-] _ c'. simpl.
    by rewrite lookup_delete_eq.
  - intros [= <- <-] _ c'. rewrite Ec. intros [= <-]. lia.
Qed.

Lemma no_empty_file_close p : preserves (no_empty_file p) (close p).
Proof.
  intros w r w' HI. unfold close, flush.
  destruct (buffers w !! p) as [b|]; [|intros [= <- <-]; exact HI].
  intros [= <- <-] c. simpl. destruct (fs w !! p) as [c0|] eqn:Ec.
  - rewrite lookup_insert_eq. intros [= <-]. rewrite size_app.
    specialize (HI c0 Ec). lia.
  - rewrite Ec. done.
Qed.

Lemma pair_body_continue env args dbs path p1 p2 w w' :
  pair_body env args dbs path p1 p2 w = (inr true, w') → no_empty_file path w'.
Proof.
  unfold pair_body.
  intros [(e & _ & ?)|(processed & w1 & _ & H)]%bind_inv; [done|].
  apply bind_inv in H as [(e & _ & ?)|([] & w2 & _ & H)]; [done|].
  apply bind_inv in H as [(e & _ & ?)|(st & w3 & _ & H)]; [done|].
  destruct (all_sentences st).
  - apply bind_inv in H as [(e & _ & ?)|([] & w4 & Hrm & H)]; [done|].
    inversion H; subst. by eapply remove_if_empty_post.
  - destruct (Torch.cat (probs st)); [|done].
    destruct (Torch.all_lt _ _).
    + apply bind_inv in H as [(e & _ & ?)|([] & w4 & Hrm & H)]; [done|].
      inversion H; subst. by eapply remove_if_empty_post.
    + apply bind_inv in H as [(e & _ & ?)|([] & w4 & _ & H)]; [done|].
      by inversion H.
Qed.

(** A pair whose processing returns leaves no zero-byte file behind. *)
Lemma process_pair_no_empty_file env args dbs p1 p2 w w' :
  p1 ≠ p2 → process_pair env args dbs (p1, p2) w = (inr tt, w') →
  no_empty_file (path_out env args p1 p2) w'.
Proof.
  intros Hne. unfold process_pair. rewrite bool_decide_eq_false_2 by done.
  set (path := path_out env args p1 p2). unfold with_open.
  intros [(e & _ & ?)|(continued & w2 & H & Hk)]%bind_inv; [done|].
  apply bind_inv in H as [(e' & _ & ?)|([] & w1 & _ & H)]; [done|].
  destruct continued.
  - inversion Hk; subst. unfold try_finally in H.
    destruct (pair_body env args dbs path p1 p2 w1) as [rb wb] eqn:Eb.
    destruct (close path wb) as [[e|[]] wc] eqn:Ec; [done|].
    inversion H; subst.
    eapply no_empty_file_close; [|exact Ec]. by eapply pair_body_continue.
  - by eapply remove_if_empty_post.
Qed.

Lemma write_db_results_none env path dbs p1 p2 processed :
  (∀ db, db ∈ dbs → get_statements env db p1 p2 = []) →
  ∃ evs, ∀ w,
    foldM (fun processed db =>
      _ ← log (EvGetStatements db p1 p2);
      foldM (fun (processed : gset string) stmt =>
        let r := db_result db stmt in
        _ ← when (negb (bool_decide (r ∈ processed)))
                 (write (io_buffer_size env) path r);
        mret ({[ r ]} ∪ processed))
        processed (get_statements env db p1 p2))
      processed dbs w
    = (inr processed, add_events w evs).
Proof.
  induction dbs as [|db dbs IH]; intros Hnone.
  - exists []. intros w. simpl. by rewrite add_events_nil.
  - destruct IH as [evs IH]; [intros db' Hdb'; apply Hnone; by right|].
    exists (EvGetStatements db p1 p2 :: evs). intros w.
    cbn [foldM]. unfold bind at 1. rewrite bind_unfold. unfold log at 1.
    rewrite (Hnone db) by (by left). cbn [foldM ret].
    rewrite IH, add_events_app. done.
Qed.

Lemma remove_if_empty_empty p w :
  fs w !! p = Some [] →
  ∃ w', remove_if_empty p w = (inr tt, w') ∧ fs w' !! p = None ∧
        buffers w' = buffers w.
Proof.
  intros Hp. unfold remove_if_empty, getsize, remove. rewrite bind_unfold, Hp.
  simpl. rewrite Hp. eexists. split; [reflexivity|]. simpl.
  by rewrite lookup_delete_eq.
Qed.

Lemma close_absent p w :
  fs w !! p = None → ∃ w', close p w = (inr tt, w') ∧ fs w' !! p = None.
Proof.
  intros Hp. unfold close, flush. destruct (buffers w !! p).
  - rewrite Hp. eexists. split; [reflexivity|done].
  - eexists. split; [reflexivity|done].
Qed.

Lemma process_pair_continue env args dbs p1 p2 w w1 w2 :
  p1 ≠ p2 →
  open_w (path_out env args p1 p2) w = (inr tt, w1) →
  pair_body env args dbs (path_out env args p1 p2) p1 p2 w1 = (inr true, w2) →
  ∃ w', process_pair env args dbs (p1, p2) w = (inr tt, w') ∧
        close (path_out env args p1 p2) w2 = (inr tt, w').
Proof.
  intros Hne Ho Hbody. unfold process_pair. rewrite bool_decide_eq_false_2 by done.
  unfold with_open. rewrite bind_unfold, (bind_ok _ _ _ _ _ Ho).
  unfold try_finally. rewrite Hbody. unfold close.
  destruct (flush (path_out env args p1 p2) w2) as [[e|[]] wf] eqn:Ef.
  - unfold flush in Ef. destruct (buffers w2 !! _); by inversion Ef.
  - eexists. split; reflexivity.
Qed.

(** Without database statements, and with no sentence or no cell at the
    cutoff, the pair leaves no file. *)
Lemma pair_without_evidence_removed env args dbs p1 p2 w st :
  p1 ≠ p2 → 0 < Args.batch_size args →
  (∀ db, db ∈ dbs → get_statements env db p1 p2 = []) →
  gather env args p1 p2 = Some st →
  (all_sentences st = [] ∨
   ∃ pr, Torch.cat (probs st) = Some pr ∧ Torch.all_lt pr (Args.cutoff args) = true) →
  ∃ w', process_pair env args dbs (p1, p2) w = (inr tt, w') ∧
        fs w' !! path_out env args p1 p2 = None.
Proof.
  intros Hne Hn Hnone Hg Hcase.
  set (path := path_out env args p1 p2).
  destruct (open_w_spec path w) as (w1 & Ho & Hfs1 & _).
  destruct (write_db_results_none env path dbs p1 p2 ∅ Hnone) as [evs Hdb].
  destruct (score_loop_gather env args
              {| probs := []; all_sentences := []; processed_sentences := ∅ |}
              (get_sentences env p1 p2)
              (add_events (add_events w1 evs) [EvGetSentences p1 p2]) Hn)
    as (st' & evs' & Hg' & Hloop).
  unfold gather in Hg. rewrite Hg in Hg'. inversion Hg'; subst st'.
  destruct (remove_if_empty_empty path
              (add_events (add_events (add_events w1 evs) [EvGetSentences p1 p2]) evs')
              Hfs1) as (w2 & Hrm & Hfs2 & _).
  assert (pair_body env args dbs path p1 p2 w1 = (inr true, w2)) as Hbody.
  { unfold pair_body, write_db_results. rewrite bind_unfold, Hdb.
    rewrite bind_unfold. unfold log at 1. rewrite bind_unfold, Hloop.
    destruct (all_sentences st) as [|s ss] eqn:Eall.
    - by rewrite bind_unfold, Hrm.
    - destruct Hcase as [?|(pr & -> & ->)]; [done|].
      by rewrite bind_unfold, Hrm. }
  destruct (process_pair_continue env args dbs p1 p2 w w1 w2 Hne Ho Hbody)
    as (w' & Hrun & Hclose).
  exists w'. split; [done|].
  destruct (close_absent path w2 Hfs2) as (w'' & Hc & Hnone').
  fold path in Hclose. rewrite Hclose in Hc. by inversion Hc; subst.
Qed.

Lemma write_flushes n p s w :
  fs w !! p = Some [] → buffers w !! p = Some [] → n ≤ String.length s →
  ∃ w', write n p s w = (inr tt, w') ∧ fs w' !! p = Some [s] ∧
        buffers w' !! p = Some [].
Proof.
  intros Hfs Hb Hn. unfold write. rewrite Hb. simpl.
  rewrite (proj2 (Nat.leb_le n (size [s]))) by (unfold size; simpl; lia).
  unfold flush. simpl. rewrite lookup_insert_eq, Hfs.
  eexists. split; [reflexivity|]. simpl. by rewrite !lookup_insert_eq.
Qed.

Lemma db_result_nonempty db stmt : 0 < String.length (db_result db stmt).
Proof.
  unfold db_result. rewrite !string_length_app.
  assert (String.length Py.LF = 1) as -> by done. lia.
Qed.

Lemma write_db_results_single env path db stmt p1 p2 w w2 :
  get_statements env db p1 p2 = [stmt] →
  write (io_buffer_size env) path (db_result db stmt)
    (add_events w [EvGetStatements db p1 p2]) = (inr tt, w2) →
  write_db_results env path [db] p1 p2 w
  = (inr ({[ db_result db stmt ]} ∪ ∅), w2).
Proof.
  intros Hst Hw. unfold write_db_results. cbn [foldM]. rewrite Hst. cbn [foldM].
  rewrite (bool_decide_eq_false_2 (db_result db stmt ∈ (∅ : gset string)))
    by apply not_elem_of_empty.
  cbn [negb when]. unfold bind, mbind, M_bind, bind, log. by rewrite Hw.
Qed.

(** A database statement whose line fills the buffer keeps the file of a
    pair without sentences. *)
Lemma db_line_kept env args db stmt p1 p2 w :
  p1 ≠ p2 →
  get_statements env db p1 p2 = [stmt] →
  io_buffer_size env ≤ String.length (db_result db stmt) →
  get_sentences env p1 p2 = [] →
  ∃ w', process_pair env args [db] (p1, p2) w = (inr tt, w') ∧
        fs w' !! path_out env args p1 p2 = Some [db_result db stmt].
Proof.
  intros Hne Hst Hbig Hsent.
  set (path := path_out env args p1 p2).
  destruct (open_w_spec path w) as (w1 & Ho & Hfs1 & Hb1 & _).
  destruct (write_flushes (io_buffer_size env) path (db_result db stmt)
              (add_events w1 [EvGetStatements db p1 p2]) Hfs1 Hb1 Hbig)
    as (w2 & Hw & Hfs2 & Hb2).
  set (w3 := add_events w2 [EvGetSentences p1 p2]).
  assert (pair_body env args [db] path p1 p2 w1 = (inr true, w3)) as Hbody.
  { unfold pair_body.
    rewrite bind_unfold, (write_db_results_single _ _ _ _ _ _ _ _ Hst Hw).
    rewrite bind_unfold. unfold log at 1. fold w3.
    rewrite Hsent. cbn [foldM]. rewrite bind_unfold. cbn [ret all_sentences].
    unfold remove_if_empty, getsize. rewrite !bind_unfold.
    assert (fs w3 !! path = Some [db_result db stmt]) as -> by done.
    pose proof (db_result_nonempty db stmt).
    destruct (Nat.eqb_spec (size [db_result db stmt]) 0) as [Hz|_];
      [unfold size in Hz; simpl in Hz; lia|].
    done. }
  destruct (process_pair_continue env args [db] p1 p2 w w1 w3 Hne Ho Hbody)
    as (w' & Hrun & Hclose).
  exists w'. split; [done|].
  destruct (close_spec path w3 [db_result db stmt]) as (w'' & Hc & Hfs'' & _).
  { unfold content. assert (fs w3 !! path = Some [db_result db stmt]) as -> by done.
    assert (buffers w3 !! path = Some []) as -> by done. done. }
  fold path in Hclose. rewrite Hclose in Hc. by inversion Hc; subst.
Qed.

End RemovalFacts.

Section PairTheorems.
Import IO Predict.

(** C3, as the code has it: a processed pair never leaves a zero-byte file;
    and when no database reports a statement for the pair, a pair with no
    sentence, or with every cell below the cutoff, leaves no file at all. *)
Theorem empty_output_removed env args dbs p1 p2 w :
  p1 ≠ p2 →
  (∀ w', process_pair env args dbs (p1, p2) w = (inr tt, w') →
         ∀ c, fs w' !! path_out env args p1 p2 = Some c → 0 < size c) ∧
  (0 < Args.batch_size args →
   (∀ db, db ∈ dbs → get_statements env db p1 p2 = []) →
   ∀ st, gather env args p1 p2 = Some st →
     (all_sentences st = [] ∨
      ∃ pr, Torch.cat (probs st) = Some pr ∧
            Torch.all_lt pr (Args.cutoff args) = true) →
     ∃ w', process_pair env args dbs (p1, p2) w = (inr tt, w') ∧
           fs w' !! path_out env args p1 p2 = None).
Proof.
  intros Hne. split.
  - intros w' Hrun. by apply (process_pair_no_empty_file env args dbs p1 p2 w w').
  - intros Hn Hnone st Hg Hcase. by eapply pair_without_evidence_removed.
Qed.

Lemma keep_new_fresh processed chunk s :
  s ∈ keep_new processed chunk → text s ∉ processed.
Proof.
  unfold keep_new. rewrite list_elem_of_In, filter_In.
  intros [_ H]. apply negb_true_iff in H. by apply bool_decide_eq_false in H.
Qed.

(** Across evidence batches the filter works: what a later batch adds has a
    text that no earlier batch has contributed. *)
Lemma gather_chunk_fresh env args st c st' :
  gather_chunk env args st c = Some st' →
  ∃ new, all_sentences st' = all_sentences st ++ new ∧
         (∀ s, s ∈ new → text s ∉ processed_sentences st) ∧
         processed_sentences st'
         = processed_sentences st ∪ list_to_set (text <$> new).
Proof.
  unfold gather_chunk. destruct (chunks _ _); [|done]. simpl. intros [= <-].
  eexists. split; [reflexivity|]. split; [|done].
  intros s. apply keep_new_fresh.
Qed.

End PairTheorems.

(** C3 does not hold as stated when a database reports statements: the pair
    has no sentence, yet its file stays, holding the database line. *)
Lemma database_line_keeps_file :
  get_sentences PairExample.db_env "1" "2" = [] ∧
  ∃ w' c,
    Predict.process_pair PairExample.db_env PairExample.db_args ["reactome"] ("1", "2")
      PairExample.w0 = (inr tt, w') ∧
    fs w' !! "out/1-2.txt" = Some c ∧ 0 < IO.size c.
Proof.
  split; [reflexivity|].
  destruct (db_line_kept PairExample.db_env PairExample.db_args "reactome"
              PairExample.db_stmt "1" "2" PairExample.w0)
    as (w' & Hrun & Hfs).
  - discriminate.
  - reflexivity.
  - apply Nat.leb_le. vm_compute. reflexivity.
  - reflexivity.
  - exists w', [Predict.db_result "reactome" PairExample.db_stmt].
    split; [exact Hrun|]. split; [exact Hfs|].
    unfold IO.size. simpl. pose proof (db_result_nonempty "reactome" PairExample.db_stmt).
    lia.
Qed.

Lemma empty_output_removed_witness :
  ∃ w', Predict.process_pair PairExample.env PairExample.args [] ("2", "1")
          PairExample.w0 = (inr tt, w') ∧
        fs w' !! Predict.path_out PairExample.env PairExample.args "2" "1" = None.
Proof.
  refine (proj2 (empty_output_removed PairExample.env PairExample.args []
                   "2" "1" PairExample.w0 _) _ _
            {| Predict.probs := []; Predict.all_sentences := [];
               Predict.processed_sentences := ∅ |} _ _).
  - discriminate.
  - simpl. lia.
  - intros db Hdb. reflexivity.
  - reflexivity.
  - left. reflexivity.
Defined.

(** C9 fails on duplicates that arrive in one evidence batch: the filter
    consults the texts of earlier batches only, so two sentences with the
    same text in the same batch are both kept, scored and written. *)
Theorem duplicate_text_within_batch_kept :
  text PairExample.s1 = text PairExample.s2 ∧
  Predict.keep_new ∅ [PairExample.s1; PairExample.s2]
    = [PairExample.s1; PairExample.s2] ∧
  Predict.all_sentences
    <$> Predict.gather PairExample.env PairExample.args "1" "2"
    = Some [PairExample.s1; PairExample.s2] ∧
  ∃ w', Predict.process_pair PairExample.env PairExample.args [] ("1", "2")
          PairExample.w0 = (inr tt, w') ∧
        EvModel ["<e1> binds <e2>"; "<e1> binds <e2>"] ∈ events w' ∧
        ∃ c, fs w' !! "out/1-2.txt" = Some c ∧
             Predict.render {| label := "in-complex-with"; score := (9 # 10)%Q;
                               rec_pmid := "1"; sentence_text := "X binds Y";
                               source := "PEDL" |} ∈ c ∧
             Predict.render {| label := "in-complex-with"; score := (9 # 10)%Q;
                               rec_pmid := "2"; sentence_text := "X binds Y";
                               source := "PEDL" |} ∈ c.
Proof.
  split; [reflexivity|]. split; [reflexivity|]. split; [reflexivity|].
  eexists. split; [vm_compute; reflexivity|]. split.
  - simpl. apply list_elem_of_In. simpl. auto.
  - eexists. split; [vm_compute; reflexivity|].
    split; apply list_elem_of_In; vm_compute; auto.
Qed.

Lemma emitted_scores_reach_cutoff_witness :
  ∃ c, fs (Predict.process_pair PairExample.env PairExample.args [] ("1", "2")
             PairExample.w0).2
       !! Predict.path_out PairExample.env PairExample.args "1" "2" = Some c ∧
       length c = 4 ∧
       Forall (fun s => Predict.db_line s ∨ Predict.record_line (1 # 2) s) c.
Proof.
  eexists. split; [vm_compute; reflexivity|]. split; [reflexivity|].
  refine (proj1 (emitted_scores_reach_cutoff PairExample.env PairExample.args []
                   "1" "2" PairExample.w0
                   (Predict.process_pair PairExample.env PairExample.args []
                      ("1", "2") PairExample.w0).1
                   (Predict.process_pair PairExample.env PairExample.args []
                      ("1", "2") PairExample.w0).2 _ _) _ _).
  - discriminate.
  - apply surjective_pairing.
  - vm_compute. reflexivity.
Defined.


(** * Further properties of the code *)

(** ** The ranker: which cells are written, and in which order *)

Section RankerMore.
Import Torch Ranker.

Lemma elem_of_hits ij (l : list (nat * nat)) : ij ∈ l ↔ 0 < hits ij l.
Proof.
  unfold hits. induction l as [|c l IH]; simpl.
  - rewrite elem_of_nil. lia.
  - rewrite elem_of_cons, IH. case_bool_decide as Hc; simpl.
    + split; [lia|]. intros _. by left.
    + split; [intros [?|?]; [congruence|done]|intros ?; by right].
Qed.

Lemma elem_of_where_eq (probs : tensor2) (m : Q) i j :
  (i, j) ∈ where_eq probs m ↔
  ∃ row v, probs !! i = Some row ∧ row !! j = Some v ∧ Qeq_bool v m = true.
Proof.
  rewrite elem_of_hits. unfold where_eq, Py.enumerate. rewrite hits_where_from.
  rewrite bool_decide_eq_true_2 by lia. replace (i - 0) with i by lia.
  destruct (probs !! i) as [row|] eqn:Hi.
  - destruct (row !! j) as [v|] eqn:Hj.
    + destruct (Qeq_bool v m) eqn:E.
      * split; [|lia]. intros _. by exists row, v.
      * split; [lia|]. intros (? & ? & [= <-] & Hj' & ?).
        rewrite Hj in Hj'. inversion Hj'; subst. congruence.
    + split; [lia|]. intros (? & ? & [= <-] & Hj' & _). congruence.
  - split; [lia|]. by intros (? & ? & ? & _).
Qed.

Lemma elem_of_walk (probs : tensor2) (cutoff : Q) i j m :
  ((i, j), m) ∈ walk probs cutoff ↔
  m ∈ sort_desc (view_flat probs) ∧ Qlt_bool m cutoff = false ∧
  (i, j) ∈ where_eq probs m.
Proof.
  unfold walk. split.
  - intros (m' & Hm' & Hc)%list_elem_of_In%in_flat_map.
    apply list_elem_of_In in Hm', Hc.
    unfold walk_step in Hc. destruct (Qlt_bool m' cutoff) eqn:E.
    + by apply elem_of_nil in Hc.
    + apply list_elem_of_fmap in Hc as (ij & [= <- <-] & Hij). done.
  - intros (Hm & Hlt & Hij). apply list_elem_of_In, in_flat_map.
    exists m. split; [by apply list_elem_of_In|].
    apply list_elem_of_In. unfold walk_step. rewrite Hlt.
    apply list_elem_of_fmap. by exists (i, j).
Qed.

(** X1: What is written is a cell of the matrix with exactly the written score,
    at or above the cutoff; and every such cell is written. *)
Theorem walk_cells_exact (probs : tensor2) (cutoff : Q) i j m :
  ((i, j), m) ∈ walk probs cutoff ↔
  m ∈ view_flat probs ∧ (cutoff <= m)%Q ∧
  ∃ row v, probs !! i = Some row ∧ row !! j = Some v ∧ (v == m)%Q.
Proof.
  rewrite elem_of_walk, sort_desc_perm, Qlt_bool_false, elem_of_where_eq.
  split.
  - intros (Hm & Hc & row & v & Hi & Hj & He). split; [done|]. split; [done|].
    exists row, v. by rewrite <- Qeq_bool_iff.
  - intros (Hm & Hc & row & v & Hi & Hj & He). split; [done|]. split; [done|].
    exists row, v. by rewrite Qeq_bool_iff.
Qed.

Lemma all_lt_spec (probs : tensor2) (cutoff : Q) :
  all_lt probs cutoff = true ↔ ∀ v, v ∈ view_flat probs → (v < cutoff)%Q.
Proof.
  unfold all_lt, view_flat. rewrite forallb_forall. split.
  - intros H v (row & Hrow & Hv)%list_elem_of_In%in_concat.
    specialize (H row Hrow). rewrite forallb_forall in H.
    by apply Qlt_bool_true, H.
  - intros H row Hrow. apply forallb_forall. intros v Hv.
    apply Qlt_bool_true, H, list_elem_of_In, in_concat. eauto.
Qed.

Lemma view_flat_cell (probs : tensor2) v :
  v ∈ view_flat probs → ∃ i j row, probs !! i = Some row ∧ row !! j = Some v.
Proof.
  intros (row & Hrow & Hv)%list_elem_of_In%in_concat.
  apply list_elem_of_In, list_elem_of_lookup_1 in Hrow as [i Hi].
  apply list_elem_of_In, list_elem_of_lookup_1 in Hv as [j Hj].
  by exists i, j, row.
Qed.

Lemma walk_empty_all_below (probs : tensor2) (cutoff : Q) :
  walk probs cutoff = [] → all_lt probs cutoff = true.
Proof.
  rewrite all_lt_spec. intros Hw v Hv. apply Qnot_le_lt. intros Hc.
  destruct (view_flat_cell _ _ Hv) as (i & j & row & Hi & Hj).
  assert (((i, j), v) ∈ walk probs cutoff) as Hin.
  { apply elem_of_walk. rewrite sort_desc_perm, Qlt_bool_false, elem_of_where_eq.
    split; [done|]. split; [done|].
    exists row, v. split; [done|]. split; [done|]. by apply Qeq_bool_iff. }
  rewrite Hw in Hin. by apply elem_of_nil in Hin.
Qed.


Lemma insert_desc_sorted x l :
  StronglySorted (fun a b => (b <= a)%Q) l →
  StronglySorted (fun a b => (b <= a)%Q) (insert_desc x l).
Proof.
  induction 1 as [|y l Hs IH Hy]; simpl.
  - by repeat constructor.
  - destruct (Qle_bool y x) eqn:E.
    + apply Qle_bool_iff in E. constructor; [by constructor|].
      constructor; [done|]. eapply Forall_impl; [exact Hy|].
      intros b Hb. simpl in Hb. by apply (Qle_trans _ y).
    + constructor; [done|]. rewrite sort_desc_insert_perm.
      constructor; [|done].
      apply Qlt_le_weak, Qnot_le_lt. intros H. apply Qle_bool_iff in H. congruence.
Qed.

Lemma sort_desc_sorted l : StronglySorted (fun a b => (b <= a)%Q) (sort_desc l).
Proof.
  induction l as [|x l IH]; simpl; [constructor|]. by apply insert_desc_sorted.
Qed.

Lemma walk_from_sorted (probs : tensor2) (cutoff : Q) (l : list Q) :
  StronglySorted (fun a b => (b <= a)%Q) l →
  StronglySorted (fun a b : cell => (b.2 <= a.2)%Q) (flat_map (walk_step probs cutoff) l).
Proof.
  induction 1 as [|m l Hs IH Hm]; simpl; [constructor|].
  apply StronglySorted_app_2; [| |done].
  - intros c1 c2 Hc1 Hc2.
    apply walk_step_reaches_cutoff in Hc1 as [-> _].
    apply list_elem_of_In, in_flat_map in Hc2 as (m' & Hm' & Hc2).
    apply list_elem_of_In, walk_step_reaches_cutoff in Hc2 as [-> _].
    rewrite Forall_forall in Hm. by apply Hm, list_elem_of_In.
  - assert (Forall (fun c : cell => c.2 = m) (walk_step probs cutoff m)) as Hall.
    { apply Forall_forall. intros c Hc. by apply walk_step_reaches_cutoff in Hc as [-> _]. }
    induction Hall as [|c l' Hc Hl' IH']; constructor; [done|].
    eapply Forall_impl; [exact Hl'|]. intros c' Hc'. simpl. rewrite Hc, Hc'.
    apply Qle_refl.
Qed.

(** X3: The records of a pair are written by non-increasing score. *)
Theorem walk_descending (probs : tensor2) (cutoff : Q) :
  StronglySorted (fun a b : cell => (b.2 <= a.2)%Q) (walk probs cutoff).
Proof. apply walk_from_sorted, sort_desc_sorted. Qed.

End RankerMore.

(** ** The work list and the cap on remote queries *)

Section QueryFacts.
Import IO Predict.

Lemma pairs_row_length (p1 : string) (p2s : list string) (skip : bool) :
  length (flat_map (fun p2 => (p1, p2) :: (if skip then [] else [(p2, p1)])) p2s)
  = length p2s * (if skip then 1 else 2).
Proof. induction p2s as [|p2 p2s IH]; simpl; [done|]. destruct skip; simpl in *; lia. Qed.

Lemma pairs_to_query_length p1s p2s skip :
  length (pairs_to_query p1s p2s skip)
  = length p1s * length p2s * (if skip then 1 else 2).
Proof.
  unfold pairs_to_query. induction p1s as [|p1 p1s IH]; simpl; [done|].
  rewrite length_app, IH, pairs_row_length. lia.
Qed.

Lemma elem_of_pairs_to_query a b p1s p2s skip :
  (a, b) ∈ pairs_to_query p1s p2s skip ↔
  (a ∈ p1s ∧ b ∈ p2s) ∨ (skip = false ∧ b ∈ p1s ∧ a ∈ p2s).
Proof.
  unfold pairs_to_query. split.
  - intros (p1 & Hp1 & (p2 & Hp2 & Hab)%in_flat_map)%list_elem_of_In%in_flat_map.
    apply list_elem_of_In in Hp1, Hp2.
    destruct Hab as [[= <- <-]|Hab]; [by left|].
    destruct skip; [done|]. destruct Hab as [[= <- <-]|[]]. by right.
  - intros [[Ha Hb]|(-> & Hb & Ha)]; apply list_elem_of_In, in_flat_map.
    + exists a. split; [by apply list_elem_of_In|]. apply in_flat_map.
      exists b. split; [by apply list_elem_of_In|]. by left.
    + exists b. split; [by apply list_elem_of_In|]. apply in_flat_map.
      exists a. split; [by apply list_elem_of_In|]. right. by left.
Qed.

(** X4: lines 69-74.  The work list holds every combination of a first and a
    second identifier, and its reverse unless reverse pairs are skipped;
    nothing else. Its length is the product of the two list lengths, doubled
    when reverse pairs are kept: repeated identifiers and self pairs count. *)
Theorem work_list_members_and_size (p1s p2s : list string) (skip : bool) :
  (∀ a b, (a, b) ∈ pairs_to_query p1s p2s skip ↔
          (a ∈ p1s ∧ b ∈ p2s) ∨ (skip = false ∧ b ∈ p1s ∧ a ∈ p2s)) ∧
  length (pairs_to_query p1s p2s skip)
  = length p1s * length p2s * (if skip then 1 else 2).
Proof.
  split; [intros a b; apply elem_of_pairs_to_query|apply pairs_to_query_length].
Qed.

(** X5: lines 69-77.  The cap lets a run pass exactly when a local PubTator
    copy is given or the work list, reverse pairs included, has at most one
    hundred entries; a run that passes leaves standard output as it is. *)
Theorem cap_boundary (args : Args.t) (p1s p2s : list string) (w : world) :
  check_cap args (pairs_to_query p1s p2s (Args.skip_reverse args)) w = (inr tt, w) ↔
  is_Some (Args.pubtator args) ∨
  length p1s * length p2s * (if Args.skip_reverse args then 1 else 2) ≤ 100.
Proof.
  unfold check_cap. rewrite pairs_to_query_length.
  set (n := length p1s * length p2s * _).
  destruct (Nat.ltb_spec 100 n) as [Hn|Hn]; simpl.
  - case_bool_decide as Hp; simpl.
    + split; [by left|done].
    + split; [|intros [?|?]; [done|lia]].
      unfold print, sys_exit, raise. rewrite bind_unfold. simpl. by intros [=].
  - split; [by right|done].
Qed.

End QueryFacts.

(** ** Identifier lists and name resolution *)

Section ResolveFacts.
Import IO Predict.

Lemma read_ids_total a w : ∃ ids, read_ids a w = (inr ids, w).
Proof.
  destruct a as [|x [|y a]]; [by eexists| |by eexists].
  unfold read_ids, path_exists. rewrite bind_unfold.
  case_bool_decide as H.
  - destruct H as [c Hc]. rewrite bind_unfold. unfold read. rewrite Hc. by eexists.
  - by eexists.
Qed.

Lemma maybe_map_unfold hgnc p w :
  maybe_map hgnc p w =
  if Py.isnumeric p then (inr p, w)
  else match hgnc !! p with
       | Some g => (inr g, w)
       | None => (inl (AssertionError
                   (p +:+ " is neither a valid HGNC symbol nor a Entrez gene id")), w)
       end.
Proof. unfold maybe_map. destruct (Py.isnumeric p); [done|]. by destruct (hgnc !! p). Qed.




End ResolveFacts.


(** ** Identifier files *)

Section IdFileFacts.
Import IO Predict Ids.





Lemma lstrip_all_space (s t : string) :
  all_space s = true → Py.lstrip (s +:+ t) = Py.lstrip t.
Proof.
  induction s as [|a s IH]; [done|]. rewrite string_app_cons. simpl.
  intros [Ha Hs]%andb_true_iff. rewrite Ha. by apply IH.
Qed.














Lemma strip_all_space (s : string) : all_space s = true → Py.strip s = "".
Proof.
  intros Hs. unfold Py.strip.
  rewrite <- (string_app_nil_r s), lstrip_all_space by done. done.
Qed.

(** X8: lines 40-56.  An identifier file that is empty or holds only white
    space is read as the one identifier that is the empty string, and the
    run stops with the AssertionError for that empty name (unless the
    symbol table has an entry for it), before anything is loaded. *)
Theorem blank_id_file_aborts (env : Env) (args : Args.t) (x : string)
    (c : list string) (w : world) :
  Args.p1 args = [x] → fs w !! x = Some c →
  all_space (String.concat "" c) = true →
  hgnc_symbol_to_gene_id env !! "" = None →
  read_ids (Args.p1 args) w = (inr [""], w) ∧
  predict env args w
  = (inl (AssertionError " is neither a valid HGNC symbol nor a Entrez gene id"), w).
Proof.
  intros Hp1 Hx Hc Hh.
  assert (read_ids (Args.p1 args) w = (inr [""], w)) as Hr.
  { rewrite Hp1. unfold read_ids, path_exists.
    rewrite bind_unfold. rewrite bool_decide_eq_true_2 by by eexists.
    rewrite bind_unfold. unfold read. rewrite Hx, strip_all_space by done. done. }
  split; [done|].
  destruct (read_ids_total (Args.p2 args) w) as [p2s Hp2].
  unfold predict, resolve_pairs. rewrite !bind_unfold, Hr. rewrite !bind_unfold, Hp2.
  cbn [mapM]. rewrite !bind_unfold, maybe_map_unfold. simpl. by rewrite Hh.
Qed.

End IdFileFacts.


Lemma blank_id_file_aborts_witness :
  Predict.predict PairExample.env
    {| Args.p1 := ["genes.txt"]; Args.p2 := ["2"]; Args.out := "out";
       Args.model := "leonweber/PEDL"; Args.dbs := []; Args.pubtator := None;
       Args.cutoff := (1 # 2)%Q; Args.batch_size := 50; Args.skip_reverse := true |}
    {| fs := {[ "genes.txt" := [Py.LF] ]}; buffers := ∅; stdout := []; events := [] |}
  = (inl (AssertionError " is neither a valid HGNC symbol nor a Entrez gene id"),
     {| fs := {[ "genes.txt" := [Py.LF] ]}; buffers := ∅; stdout := []; events := [] |}).
Proof.
  apply (blank_id_file_aborts PairExample.env _ "genes.txt" [Py.LF]);
    reflexivity.
Defined.

(** ** Database lines of a pair *)

Section DbFacts.
Import IO Predict PairFile.

Lemma first_occurrences_elem seen l s :
  s ∈ first_occurrences seen l ↔ s ∈ l ∧ s ∉ seen.
Proof.
  revert seen. induction l as [|r l IH]; intros seen; simpl.
  - rewrite elem_of_nil. naive_solver.
  - case_bool_decide as Hr.
    + rewrite IH, elem_of_cons. naive_solver.
    + rewrite !elem_of_cons, IH. split.
      * intros [->|[Hs Hn]]; [by split; [left|]|]. split; [by right|set_solver].
      * intros [[->|Hs] Hn]; [by left|].
        destruct (decide (s = r)) as [->|Hsr]; [by left|right]. split; [done|set_solver].
Qed.

Lemma first_occurrences_NoDup seen l : NoDup (first_occurrences seen l).
Proof.
  revert seen. induction l as [|r l IH]; intros seen; simpl; [constructor|].
  case_bool_decide; [done|]. constructor; [|done].
  rewrite first_occurrences_elem. set_solver.
Qed.

Lemma first_occurrences_sublist seen l : first_occurrences seen l `sublist_of` l.
Proof.
  revert seen. induction l as [|r l IH]; intros seen; simpl; [done|].
  case_bool_decide; [by apply sublist_cons|by apply sublist_skip].
Qed.

Lemma first_occurrences_app seen l1 l2 :
  first_occurrences seen (l1 ++ l2)
  = first_occurrences seen l1 ++ first_occurrences (list_to_set l1 ∪ seen) l2.
Proof.
  revert seen. induction l1 as [|r l1 IH]; intros seen; simpl.
  - by rewrite (left_id_L ∅ (∪)).
  - case_bool_decide as Hr.
    + rewrite IH. do 2 f_equal. set_solver.
    + simpl. rewrite IH. do 3 f_equal. set_solver.
Qed.

(** Writes do not look at the log of external calls. *)
Lemma write_add_events n p s w evs :
  write n p s (add_events w evs)
  = ((write n p s w).1, add_events (write n p s w).2 evs).
Proof.
  unfold write, flush. simpl. destruct (n <=? _); [|done].
  simpl. rewrite lookup_insert_eq. done.
Qed.

Lemma write_ok n p s w : (write n p s w).1 = inr tt.
Proof.
  unfold write, flush. simpl. destruct (n <=? _); [|done].
  simpl. by rewrite lookup_insert_eq.
Qed.

Lemma write_lines_cons n p s ls w :
  write_lines n p (s :: ls) w = write_lines n p ls (write n p s w).2.
Proof.
  unfold write_lines. cbn [for_each]. unfold bind.
  pose proof (write_ok n p s w) as H. destruct (write n p s w) as [[e|[]] w1]; [done|done].
Qed.

Lemma write_lines_ok n p ls w : (write_lines n p ls w).1 = inr tt.
Proof.
  revert w. induction ls as [|s ls IH]; intros w; [done|].
  by rewrite write_lines_cons.
Qed.

Lemma write_lines_app n p l1 l2 w :
  write_lines n p (l1 ++ l2) w = write_lines n p l2 (write_lines n p l1 w).2.
Proof.
  revert w. induction l1 as [|s l1 IH]; intros w; [done|].
  simpl. by rewrite !write_lines_cons, IH.
Qed.

Lemma write_lines_add_events n p ls w evs :
  write_lines n p ls (add_events w evs)
  = (inr tt, add_events (write_lines n p ls w).2 evs).
Proof.
  revert w. induction ls as [|s ls IH]; intros w; [done|].
  rewrite !write_lines_cons, write_add_events. simpl. apply IH.
Qed.

Lemma write_lines_eta n p ls w :
  write_lines n p ls w = (inr tt, (write_lines n p ls w).2).
Proof.
  pose proof (write_lines_ok n p ls w). by destruct (write_lines n p ls w) as [? ?]; simplify_eq/=.
Qed.

(** The inner loop of lines 133-140 for one database. *)
Lemma db_statements_written env path db (ss : list Statement) (seen : gset string) w :
  foldM (fun (processed : gset string) stmt =>
           let r := db_result db stmt in
           _ ← when (negb (bool_decide (r ∈ processed)))
                    (write (io_buffer_size env) path r);
           mret ({[ r ]} ∪ processed)) seen ss w
  = (inr (list_to_set (db_result db <$> ss) ∪ seen),
     (write_lines (io_buffer_size env) path
        (first_occurrences seen (db_result db <$> ss)) w).2).
Proof.
  revert seen w. induction ss as [|stmt ss IH]; intros seen w.
  - simpl. by rewrite (left_id_L ∅ (∪)).
  - cbn [foldM fmap list_fmap first_occurrences]. unfold bind at 1.
    rewrite bind_unfold. case_bool_decide as Hr; simpl.
    + cbn [ret]. etrans; [apply IH|]. f_equal; [f_equal; set_solver|].
      replace ({[db_result db stmt]} ∪ seen) with seen by set_solver. done.
    + pose proof (write_ok (io_buffer_size env) path (db_result db stmt) w) as Hok.
      rewrite write_lines_cons.
      destruct (write _ path (db_result db stmt) w) as [[e|[]] w1]; [done|].
      cbn [ret snd]. etrans; [apply IH|]. f_equal. f_equal. set_solver.
Qed.

Lemma write_db_results_from env path dbs p1 p2 (seen : gset string) w :
  foldM (fun processed db =>
    _ ← log (EvGetStatements db p1 p2);
    foldM (fun (processed : gset string) stmt =>
      let r := db_result db stmt in
      _ ← when (negb (bool_decide (r ∈ processed)))
               (write (io_buffer_size env) path r);
      mret ({[ r ]} ∪ processed))
      processed (get_statements env db p1 p2))
    seen dbs w
  = (inr (list_to_set (db_results env dbs p1 p2) ∪ seen),
     add_events
       (write_lines (io_buffer_size env) path
          (first_occurrences seen (db_results env dbs p1 p2)) w).2
       ((fun db => EvGetStatements db p1 p2) <$> dbs)).
Proof.
  revert seen w. induction dbs as [|db dbs IH]; intros seen w.
  - simpl. by rewrite (left_id_L ∅ (∪)), add_events_nil.
  - cbn [foldM]. unfold bind at 1. rewrite bind_unfold. unfold log at 1.
    rewrite db_statements_written, IH.
    unfold db_results. cbn [flat_map fmap list_fmap].
    fold (db_results env dbs p1 p2).
    rewrite first_occurrences_app, write_lines_app.
    rewrite !write_lines_add_events. cbn [snd].
    rewrite write_lines_add_events. cbn [snd]. rewrite add_events_app.
    f_equal. f_equal. rewrite list_to_set_app_L. set_solver.
Qed.

Lemma write_db_results_spec env path dbs p1 p2 w :
  write_db_results env path dbs p1 p2 w
  = (inr (list_to_set (db_results env dbs p1 p2) ∪ ∅),
     add_events
       (write_lines (io_buffer_size env) path (db_lines env dbs p1 p2) w).2
       ((fun db => EvGetStatements db p1 p2) <$> dbs)).
Proof. apply write_db_results_from. Qed.

Lemma write_lines_content n p ls w c :
  content w p = Some c →
  content (write_lines n p ls w).2 p = Some (c ++ ls) ∧
  frame p w (write_lines n p ls w).2.
Proof.
  revert w c. induction ls as [|s ls IH]; intros w c Hc.
  - simpl. rewrite app_nil_r. split; [done|apply frame_refl].
  - rewrite write_lines_cons.
    destruct (write_spec n p s w c Hc) as (w1 & Hw & Hc1 & Hf1). rewrite Hw. simpl.
    destruct (IH w1 _ Hc1) as [Hc2 Hf2]. rewrite <- app_assoc in Hc2.
    split; [done|].
    destruct Hf1 as (Ha & Hb & Hd), Hf2 as (Ha' & Hb' & Hd').
    split; [|split; congruence].
    intros q Hq. destruct (Ha q Hq), (Ha' q Hq). split; congruence.
Qed.

End DbFacts.

(** ** The run of one pair *)

Section PairRunFacts.
Import IO Predict PairFile.

Lemma score_loop_trace env args st l w :
  0 < Args.batch_size args →
  ∃ st' batches,
    gather_from env args st l = Some st' ∧
    foldM (score_chunk env args) st l w
    = (inr st', add_events w ((fun b => EvModel (text_blinded <$> b)) <$> batches)) ∧
    all_sentences st' = all_sentences st ++ concat batches ∧
    probs st' = probs st ++ (score_of env <$> batches) ∧
    Forall (fun b => 0 < length b ≤ Args.batch_size args) batches.
Proof.
  intros Hn. revert st w. induction l as [|c l IH]; intros st w.
  - exists st, []. simpl. by rewrite add_events_nil, !app_nil_r.
  - cbn [gather_from foldM]. unfold gather_chunk, score_chunk, bind.
    destruct (chunks_positive (keep_new (processed_sentences st) c) _ Hn)
      as (cs & -> & Hcat & Hsz).
    rewrite bind_unfold, score_batches_spec. cbn [mret M_ret ret mbind option_bind].
    edestruct IH as (st' & batches & -> & -> & Hall & Hprobs & Hsizes).
    exists st', (cs ++ batches). split; [done|].
    rewrite add_events_app, fmap_app. split; [done|].
    rewrite Hall, Hprobs. simpl.
    rewrite concat_app, fmap_app, Hcat, !app_assoc.
    split; [done|]. split; [done|]. by apply Forall_app.
Qed.

Lemma rank_writes env args path pr all recs w :
  mapM (record_of env all) (Ranker.walk pr (Args.cutoff args)) = Some recs →
  rank env args path pr all w
  = write_lines (io_buffer_size env) path (render <$> recs) w.
Proof.
  unfold rank. generalize (Ranker.walk pr (Args.cutoff args)). intros cells.
  revert recs w. induction cells as [|c cells IH]; intros recs w.
  - by intros [= <-].
  - cbn [mapM]. destruct (record_of env all c) as [r|] eqn:Hr; [|done].
    destruct (mapM (record_of env all) cells) as [rs|] eqn:Hrs; [|done].
    intros [= <-]. cbn [fmap list_fmap for_each]. rewrite Hr.
    rewrite write_lines_cons. unfold bind.
    pose proof (write_ok (io_buffer_size env) path (render r) w) as Hok.
    destruct (write _ path (render r) w) as [[e|[]] w1]; [done|]. by apply IH.
Qed.

Lemma rank_index_error env args path pr all w :
  mapM (record_of env all) (Ranker.walk pr (Args.cutoff args)) = None →
  ∃ w', rank env args path pr all w = (inl IndexError, w').
Proof.
  unfold rank. generalize (Ranker.walk pr (Args.cutoff args)). intros cells.
  revert w. induction cells as [|c cells IH]; intros w; [done|].
  cbn [mapM for_each]. unfold bind.
  destruct (record_of env all c) as [r|] eqn:Hr; [|by eexists].
  pose proof (write_ok (io_buffer_size env) path (render r) w) as Hok.
  destruct (write _ path (render r) w) as [[e|[]] w1]; [done|].
  destruct (mapM (record_of env all) cells) as [rs|] eqn:Hrs; [done|].
  intros _. by apply IH.
Qed.

Lemma records_exist env all (pr : Torch.tensor2) cutoff :
  length pr = length all →
  ∃ recs, mapM (record_of env all) (Ranker.walk pr cutoff) = Some recs ∧
          length recs = length (Ranker.walk pr cutoff).
Proof.
  intros Hlen.
  destruct (mapM_is_Some_2 (record_of env all) (Ranker.walk pr cutoff)) as [recs Hrecs].
  - apply Forall_forall. intros [[i j] m] Hc. simpl.
    apply elem_of_walk in Hc as (_ & _ & Hij).
    apply elem_of_where_eq in Hij as (row & v & Hi & _).
    apply lookup_lt_Some in Hi. rewrite Hlen in Hi.
    apply lookup_lt_is_Some_2 in Hi as [s Hs]. unfold record_of. rewrite Hs. by eexists.
  - exists recs. split; [done|]. symmetry. by eapply length_mapM.
Qed.

Lemma aligned_lengths env (batches : list (list Sentence)) :
  (∀ b, length (scores env b) = length b) →
  length (concat (score_of env <$> batches)) = length (concat batches).
Proof.
  intros Hal. induction batches as [|b batches IH]; [done|].
  cbn [fmap list_fmap concat]. rewrite !length_app, IH. f_equal.
  unfold score_of. by rewrite Hal, length_fmap.
Qed.

(** What the body of the [with] block does, up to the three ways it ends. *)
Lemma pair_body_prefix env args dbs path p1 p2 w :
  0 < Args.batch_size args →
  ∃ st batches,
    gather env args p1 p2 = Some st ∧
    all_sentences st = concat batches ∧
    probs st = score_of env <$> batches ∧
    Forall (fun b => 0 < length b ≤ Args.batch_size args) batches ∧
    pair_body env args dbs path p1 p2 w
    = (let w3 :=
         add_events
           (write_lines (io_buffer_size env) path (db_lines env dbs p1 p2) w).2
           (((fun db => EvGetStatements db p1 p2) <$> dbs)
              ++ [EvGetSentences p1 p2]
              ++ ((fun b => EvModel (text_blinded <$> b)) <$> batches)) in
       match all_sentences st with
       | [] => (_ ← remove_if_empty path; mret true) w3
       | _ :: _ =>
           match Torch.cat (probs st) with
           | None => (inl RuntimeError, w3)
           | Some probs =>
               if Torch.all_lt probs (Args.cutoff args)
               then (_ ← remove_if_empty path; mret true) w3
               else (_ ← rank env args path probs (all_sentences st); mret false) w3
           end
       end).
Proof.
  intros Hn.
  set (w2 := add_events
           (add_events
              (write_lines (io_buffer_size env) path (db_lines env dbs p1 p2) w).2
              ((fun db => EvGetStatements db p1 p2) <$> dbs))
           [EvGetSentences p1 p2]).
  destruct (score_loop_trace env args
              {| probs := []; all_sentences := []; processed_sentences := ∅ |}
              (get_sentences env p1 p2) w2 Hn)
    as (st & batches & Hg & Hloop & Hall & Hprobs & Hsz).
  exists st, batches. simpl in Hall, Hprobs. do 4 (split; [done|]).
  unfold pair_body. rewrite bind_unfold, write_db_results_spec.
  rewrite bind_unfold. unfold log at 1. fold w2. rewrite bind_unfold, Hloop.
  unfold w2. rewrite !add_events_app. cbn zeta.
  destruct (all_sentences st); [done|].
  destruct (Torch.cat (probs st)); [|done]. by destruct (Torch.all_lt _ _).
Qed.


Lemma remove_if_empty_kept p w c :
  fs w !! p = Some c → 0 < size c → remove_if_empty p w = (inr tt, w).
Proof.
  intros Hp Hc. unfold remove_if_empty, getsize. rewrite bind_unfold, Hp.
  destruct (Nat.eqb_spec (size c) 0); [lia|done].
Qed.

Lemma remove_if_empty_ok p w :
  is_Some (fs w !! p) →
  ∃ w', remove_if_empty p w = (inr tt, w') ∧ buffers w' = buffers w ∧
        events w' = events w ∧ stdout w' = stdout w ∧
        (∀ q, q ≠ p → fs w' !! q = fs w !! q) ∧
        (fs w' !! p = None ∨ fs w' !! p = fs w !! p).
Proof.
  intros [c Hp]. unfold remove_if_empty, getsize, remove. rewrite bind_unfold, Hp.
  destruct (size c =? 0); simpl.
  - rewrite Hp. eexists. split; [done|]. simpl. do 3 (split; [done|]).
    split; [|left; by rewrite lookup_delete_eq].
    intros q Hq. by rewrite lookup_delete_ne.
  - exists w. rewrite Hp. split; [done|]. do 4 (split; [done|]). by right.
Qed.

Lemma size_cons s c : size (s :: c) = String.length s + size c.
Proof. reflexivity. Qed.

Lemma render_nonempty r : 0 < String.length (render r).
Proof.
  unfold render. rewrite !string_length_app. unfold Py.LF. simpl. lia.
Qed.

Lemma close_total p w :
  ∃ w', close p w = (inr tt, w') ∧ buffers w' !! p = None ∧
        events w' = events w ∧ stdout w' = stdout w ∧
        (∀ q, q ≠ p → fs w' !! q = fs w !! q ∧ buffers w' !! q = buffers w !! q) ∧
        (fs w !! p = None → fs w' !! p = None) ∧
        (∀ c, content w p = Some c → fs w' !! p = Some c).
Proof.
  unfold close, flush, content.
  destruct (buffers w !! p) as [b|] eqn:Eb; [destruct (fs w !! p) as [c0|] eqn:Ec|];
    eexists; (split; [reflexivity|]); simpl.
  - rewrite lookup_delete_eq, lookup_insert_eq. do 3 (split; [done|]).
    split; [|split; [done|by intros c [= <-]]].
    intros q Hq. by rewrite lookup_delete_ne, !lookup_insert_ne.
  - rewrite lookup_delete_eq. do 3 (split; [done|]).
    split; [|split; [done|done]].
    intros q Hq. by rewrite lookup_delete_ne, !lookup_insert_ne.
  - rewrite lookup_delete_eq. do 3 (split; [done|]).
    split; [|split; [done|]].
    + intros q Hq. by rewrite lookup_delete_ne.
    + intros c. by destruct (fs w !! p).
Qed.

Lemma open_w_unfold p w :
  open_w p w = (inr tt, (open_w p w).2) ∧
  fs (open_w p w).2 !! p = Some [] ∧ buffers (open_w p w).2 !! p = Some [] ∧
  content (open_w p w).2 p = Some [] ∧
  events (open_w p w).2 = events w ∧ stdout (open_w p w).2 = stdout w ∧
  (∀ q, q ≠ p → fs (open_w p w).2 !! q = fs w !! q
                ∧ buffers (open_w p w).2 !! q = buffers w !! q).
Proof.
  unfold content, open_w. simpl. rewrite !lookup_insert_eq. simpl.
  do 6 (split; [done|]). intros q Hq. by rewrite !lookup_insert_ne.
Qed.

(** The two ways a pair ends without an exception: through one of the two
    early exits, or after the ranked records have been written. *)
Lemma process_pair_spec env args dbs p1 p2 w :
  p1 ≠ p2 → 0 < Args.batch_size args →
  let path := path_out env args p1 p2 in
  let n := io_buffer_size env in
  let lines := db_lines env dbs p1 p2 in
  ∃ st batches,
    gather env args p1 p2 = Some st ∧
    all_sentences st = concat batches ∧
    probs st = score_of env <$> batches ∧
    Forall (fun b => 0 < length b ≤ Args.batch_size args) batches ∧
    ((all_sentences st = [] ∨
      Torch.all_lt (concat (probs st)) (Args.cutoff args) = true) →
     ∃ w', process_pair env args dbs (p1, p2) w = (inr tt, w') ∧
           pair_done path (pair_trace dbs p1 p2 batches) w w' ∧
           (fs w' !! path = None ∨ fs w' !! path = Some lines) ∧
           (fs (write_lines n path lines (open_w path w).2).2 !! path = Some [] →
            fs w' !! path = None)) ∧
    (all_sentences st ≠ [] →
     Torch.all_lt (concat (probs st)) (Args.cutoff args) = false →
     ∀ recs,
       mapM (record_of env (all_sentences st))
            (Ranker.walk (concat (probs st)) (Args.cutoff args)) = Some recs →
       ∃ w', process_pair env args dbs (p1, p2) w = (inr tt, w') ∧
             pair_done path (pair_trace dbs p1 p2 batches) w w' ∧
             fs w' !! path = Some (lines ++ (render <$> recs))).
Proof.
  intros Hne Hn path n lines.
  destruct (open_w_unfold path w) as (Ho & Hfs1 & Hb1 & Hc1 & Hev1 & Hout1 & Hfr1).
  set (w1 := (open_w path w).2) in *.
  destruct (pair_body_prefix env args dbs path p1 p2 w1 Hn)
    as (st & batches & Hg & Hall & Hprobs & Hsz & Hbody).
  fold n lines in Hbody. fold (pair_trace dbs p1 p2 batches) in Hbody.
  destruct (write_lines_content n path lines w1 [] Hc1) as [Hcl Hfl].
  set (wl := (write_lines n path lines w1).2) in *. simpl in Hcl.
  set (trace := pair_trace dbs p1 p2 batches) in *.
  assert (all_sentences st ≠ [] → Torch.cat (probs st) = Some (concat (probs st)))
    as Hcat.
  { intros Hs. apply cat_nonempty. rewrite Hprobs. intros Hb.
    apply fmap_nil_inv in Hb. apply Hs. by rewrite Hall, Hb. }
  exists st, batches. do 4 (split; [done|]). split.
  - (* early exits *)
    intros Hcont.
    assert (pair_body env args dbs path p1 p2 w1
            = (_ ← remove_if_empty path; mret true) (add_events wl trace)) as Hb.
    { rewrite Hbody. cbn zeta. destruct (all_sentences st) as [|s ss] eqn:Es; [done|].
      rewrite Hcat by done. destruct Hcont as [?| ->]; done. }
    apply content_Some in Hcl as (c1 & b1 & Hfsl & Hbl & Hdb).
    destruct (remove_if_empty_ok path (add_events wl trace))
      as (w4 & Hrm & Hb4 & Hev4 & Hout4 & Hfr4 & Hfs4); [by eexists|].
    rewrite bind_unfold, Hrm in Hb. cbn [mret M_ret ret] in Hb.
    destruct (process_pair_continue env args dbs p1 p2 w w1 w4 Hne Ho Hb)
      as (w' & Hrun & Hclose). fold path in Hclose.
    destruct (close_total path w4) as (w5 & Hc5 & Hb5 & Hev5 & Hout5 & Hfr5 & Hn5 & Hk5).
    rewrite Hclose in Hc5. inversion Hc5; subst w5. clear Hc5.
    destruct Hfl as (Hfla & Hflb & Hflc).
    exists w'. split; [done|]. split; [|split].
    + split; [|split; [|split; [done|]]].
      * rewrite Hev5, Hev4. simpl. by rewrite Hflb, Hev1.
      * rewrite Hout5, Hout4. simpl. by rewrite Hflc, Hout1.
      * intros q Hq. destruct (Hfr5 q Hq) as [-> ->]. rewrite Hfr4, Hb4 by done.
        simpl. destruct (Hfla q Hq) as [-> ->]. by apply Hfr1.
    + destruct Hfs4 as [Hnone|Hkept]; [left; by apply Hn5|right].
      apply Hk5. unfold content. rewrite Hkept, Hb4. simpl.
      rewrite Hfsl, Hbl. simpl. by rewrite Hdb.
    + intros Hflushed. apply Hn5.
      destruct (remove_if_empty_empty path (add_events wl trace) Hflushed)
        as (w4' & Hrm' & Hnone & _).
      rewrite Hrm in Hrm'. by inversion Hrm'; subst.
  - (* ranked records *)
    intros Hs Hlt recs Hrecs.
    assert (pair_body env args dbs path p1 p2 w1
            = (inr false,
               add_events (write_lines n path (lines ++ (render <$> recs)) w1).2 trace))
      as Hb.
    { rewrite Hbody. cbn zeta. destruct (all_sentences st) as [|s ss] eqn:Es; [done|].
      rewrite Hcat by done. rewrite Hlt.
      rewrite bind_unfold, (rank_writes _ _ _ _ _ _ _ Hrecs).
      fold n. rewrite write_lines_add_events, write_lines_app. done. }
    destruct (write_lines_content n path (lines ++ (render <$> recs)) w1 [] Hc1)
      as [Hcr Hfrr].
    set (wr := (write_lines n path (lines ++ (render <$> recs)) w1).2) in *.
    simpl in Hcr.
    destruct (with_open_spec path (pair_body env args dbs path p1 p2) w w1
                (inr false) (add_events wr trace) _ Ho Hb Hcr)
      as (w5 & Hwith & Hfs5 & Hfr5).
    assert (recs ≠ []) as Hrne.
    { intros ->. apply mapM_Some_1, Forall2_nil_inv_r in Hrecs.
      apply walk_empty_all_below in Hrecs. congruence. }
    assert (0 < size (lines ++ (render <$> recs))) as Hpos.
    { rewrite size_app. destruct recs as [|r recs]; [done|].
      cbn [fmap list_fmap]. rewrite size_cons.
      pose proof (render_nonempty r). lia. }
    exists w5. split; [|split; [|done]].
    + unfold process_pair. rewrite bool_decide_eq_false_2 by done. fold path.
      rewrite bind_unfold, Hwith. by eapply remove_if_empty_kept.
    + destruct Hfr5 as (Ha5 & Hb5 & Hc5), Hfrr as (Har & Hbr & Hcr').
      split; [|split; [|split]].
      * rewrite Hb5. simpl. by rewrite Hbr, Hev1.
      * rewrite Hc5. simpl. by rewrite Hcr', Hout1.
      * unfold with_open in Hwith. rewrite bind_unfold, Ho in Hwith.
        unfold try_finally in Hwith. rewrite Hb in Hwith.
        destruct (close_total path (add_events wr trace))
          as (w6 & Hc6 & Hb6 & _). rewrite Hc6 in Hwith.
        by inversion Hwith; subst.
      * intros q Hq. destruct (Ha5 q Hq) as [-> ->]. simpl.
        destruct (Har q Hq) as [-> ->]. by apply Hfr1.
Qed.

End PairRunFacts.

Section PairRunTheorems.
Import IO Predict PairFile.

Lemma elem_of_db_results env dbs p1 p2 s :
  s ∈ db_results env dbs p1 p2 ↔
  ∃ db stmt, db ∈ dbs ∧ stmt ∈ get_statements env db p1 p2 ∧ s = db_result db stmt.
Proof.
  unfold db_results. split.
  - intros (db & Hdb & Hs)%list_elem_of_In%in_flat_map.
    apply list_elem_of_In in Hdb, Hs. apply list_elem_of_fmap in Hs as (stmt & -> & Hs).
    by exists db, stmt.
  - intros (db & stmt & Hdb & Hs & ->). apply list_elem_of_In, in_flat_map.
    exists db. split; [by apply list_elem_of_In|].
    apply list_elem_of_In, list_elem_of_fmap. by exists stmt.
Qed.

(** X9: lines 128-140.  The database loop appends to the open file the
    lines of all statements of all databases in loop order, each distinct
    line once, at its first occurrence: a line that repeats, within one
    database or because a database is named twice, is written once.  Each
    database is asked exactly once, in the order given. *)
Theorem database_lines_written_once env path dbs p1 p2 w c :
  content w path = Some c →
  ∃ seen w',
    write_db_results env path dbs p1 p2 w = (inr seen, w') ∧
    content w' path = Some (c ++ db_lines env dbs p1 p2) ∧
    events w' = events w ++ ((fun db => EvGetStatements db p1 p2) <$> dbs) ∧
    NoDup (db_lines env dbs p1 p2) ∧
    db_lines env dbs p1 p2 `sublist_of` db_results env dbs p1 p2 ∧
    (∀ s, s ∈ db_lines env dbs p1 p2 ↔
          ∃ db stmt, db ∈ dbs ∧ stmt ∈ get_statements env db p1 p2
                     ∧ s = db_result db stmt) ∧
    (∀ pre s post, db_results env dbs p1 p2 = pre ++ s :: post → s ∉ pre →
       db_lines env dbs p1 p2
       = first_occurrences ∅ pre
           ++ s :: first_occurrences ({[ s ]} ∪ (list_to_set pre ∪ ∅)) post).
Proof.
  intros Hc. rewrite write_db_results_spec.
  destruct (write_lines_content (io_buffer_size env) path
              (db_lines env dbs p1 p2) w c Hc) as [Hc' (_ & Hev & _)].
  eexists _, _. split; [reflexivity|]. split; [exact Hc'|].
  split; [simpl; by rewrite Hev|].
  split; [apply first_occurrences_NoDup|].
  split; [apply first_occurrences_sublist|]. split.
  - intros s. unfold db_lines. rewrite first_occurrences_elem, elem_of_db_results.
    set_solver.
  - intros pre s post Hsplit Hs. unfold db_lines. rewrite Hsplit.
    rewrite first_occurrences_app. f_equal. simpl.
    rewrite bool_decide_eq_false_2; [done|]. set_solver.
Qed.

Lemma process_pair_done env args dbs p1 p2 w :
  p1 ≠ p2 → 0 < Args.batch_size args →
  (∀ b, length (scores env b) = length b) →
  ∃ w' batches,
    process_pair env args dbs (p1, p2) w = (inr tt, w') ∧
    pair_done (path_out env args p1 p2) (pair_trace dbs p1 p2 batches) w w' ∧
    Forall (fun b => 0 < length b ≤ Args.batch_size args) batches ∧
    all_sentences <$> gather env args p1 p2 = Some (concat batches).
Proof.
  intros Hne Hn Hal.
  destruct (process_pair_spec env args dbs p1 p2 w Hne Hn)
    as (st & batches & Hg & Hall & Hprobs & Hsz & Hcont & Hrank).
  destruct (decide (all_sentences st = [])) as [Hs|Hs];
    [|destruct (Torch.all_lt (concat (probs st)) (Args.cutoff args)) eqn:Hlt].
  - destruct Hcont as (w' & Hrun & Hdone & _); [by left|].
    exists w', batches. by rewrite Hg, <- Hall.
  - destruct Hcont as (w' & Hrun & Hdone & _); [by right|].
    exists w', batches. by rewrite Hg, <- Hall.
  - destruct (records_exist env (all_sentences st) (concat (probs st))
                (Args.cutoff args)) as (recs & Hrecs & _).
    { rewrite Hprobs, Hall. by apply aligned_lengths. }
    destruct (Hrank Hs eq_refl recs Hrecs) as (w' & Hrun & Hdone & _).
    exists w', batches. by rewrite Hg, <- Hall.
Qed.




End PairRunTheorems.

Lemma database_lines_written_once_witness :
  ∃ seen w',
    Predict.write_db_results DbExample.env "out/1-2.txt" ["reactome"; "reactome"]
      "1" "2" DbExample.opened = (inr seen, w') ∧
    IO.content w' "out/1-2.txt"
    = Some [Predict.db_result "reactome" DbExample.stmt] ∧
    events w' = [EvGetStatements "reactome" "1" "2"; EvGetStatements "reactome" "1" "2"].
Proof.
  destruct (database_lines_written_once DbExample.env "out/1-2.txt"
              ["reactome"; "reactome"] "1" "2" DbExample.opened [] eq_refl)
    as (seen & w' & H1 & H2 & H3 & _).
  exists seen, w'. split; [exact H1|]. split; [|exact H3].
  rewrite H2. vm_compute. reflexivity.
Defined.




(** ** The sentences kept of the evidence batches *)

Section KeepFacts.
Import Predict.














End KeepFacts.


(** ** What a run leaves alone *)

Section PairInvariant.
Import IO Predict.

(** A property of the world that the operations on one path and the log
    keep is kept by everything done for a pair writing to that path. *)
Variable I : world → Prop.
Variable path : string.
Hypothesis I_log : ∀ e, preserves I (log e).
Hypothesis I_open : preserves I (open_w path).
Hypothesis I_write : ∀ n s, preserves I (write n path s).
Hypothesis I_close : preserves I (close path).
Hypothesis I_getsize : preserves I (getsize path).
Hypothesis I_remove : preserves I (remove path).







End PairInvariant.

Section UntouchedFacts.
Import IO Predict.












(** X16: lines 75-116.  When databases are requested and the database
    module cannot be imported, a run that passes the cap stops with exit
    status 1 after the model, the evidence provider and the tokenizer have
    been set up and the output directory has been created, and before any
    pair is looked at: no database or evidence is queried and no file is
    written. *)
Theorem missing_database_module_aborts env args w m1 m2 pairs w1 :
  resolve_pairs env args w = (inr (m1, m2, pairs), w1) →
  is_Some (Args.pubtator args) ∨ length pairs ≤ 100 →
  Args.dbs args ≠ [] → indra_installed env = false →
  ∃ w', predict env args w = (inl (SystemExit 1), w') ∧
        fs w' = fs w ∧ buffers w' = buffers w ∧
        events w'
        = events w ++ [EvFromPretrained (Args.model args);
                       EvDataGetter (list_to_set (m1 ++ m2));
                       EvTokenizer (Args.model args);
                       EvMakedirs (Args.out args)] ∧
        stdout w'
        = stdout w ++ ["Harvesting interactions from databases requires indra.Please install via `pip install indra' for obtaining additional interactions from databases."].
Proof.
  intros Hres Hcap Hdbs Hindra.
  pose proof (readonly_resolve_pairs _ _ _ _ _ Hres) as ->.
  eexists. split.
  - unfold predict. rewrite (bind_ok _ _ _ _ _ Hres). cbn [fst snd].
    unfold run_pairs, check_cap.
    assert ((100 <? length pairs) && negb (bool_decide (is_Some (Args.pubtator args)))
            = false) as ->.
    { destruct Hcap as [Hp|Hl].
      - rewrite (bool_decide_eq_true_2 _ Hp). apply andb_false_r.
      - by rewrite (proj2 (Nat.ltb_ge _ _) Hl). }
    unfold load_dbs. destruct (Args.dbs args) as [|db dbs]; [done|].
    rewrite Hindra. reflexivity.
  - simpl. split; [done|]. split; [done|]. split.
    + by rewrite <- !app_assoc.
    + done.
Qed.

Lemma pairs_loop_completes env args dbs (pairs : list (string * string)) w :
  0 < Args.batch_size args →
  (∀ b, length (scores env b) = length b) →
  ∃ w', for_each pairs (process_pair env args dbs) w = (inr tt, w') ∧
        stdout w' = stdout w ∧
        (∀ q, (∀ a b, (a, b) ∈ pairs → a ≠ b → q ≠ path_out env args a b) →
              fs w' !! q = fs w !! q ∧ buffers w' !! q = buffers w !! q) ∧
        (∀ a b, (a, b) ∈ pairs → a ≠ b →
              buffers w' !! path_out env args a b = None ∧
              no_empty_file (path_out env args a b) w').
Proof.
  intros Hn Hal. revert w. induction pairs as [|[a b] pairs IH]; intros w.
  - exists w. split; [done|]. split; [done|]. split; [done|].
    intros a b Hab. by apply elem_of_nil in Hab.
  - cbn [for_each]. unfold bind.
    destruct (decide (a = b)) as [->|Hne].
    + unfold process_pair at 1. rewrite bool_decide_eq_true_2 by done.
      cbn [mret M_ret ret].
      destruct (IH w) as (w' & Hrun & Hout & Hfr & Hcl). exists w'.
      split; [done|]. split; [done|]. split.
      * intros q Hq. apply Hfr. intros a' b' Hab. apply Hq. by right.
      * intros a' b' [[= -> ->]|Hab]%elem_of_cons Hne'; [done|]. by apply Hcl.
    + destruct (process_pair_done env args dbs a b w Hne Hn Hal)
        as (w1 & batches & Hrun1 & (Hev1 & Hout1 & Hb1 & Hfr1) & _).
      pose proof (process_pair_no_empty_file _ _ _ _ _ _ _ Hne Hrun1) as Hnz1.
      rewrite Hrun1.
      destruct (IH w1) as (w' & Hrun & Hout & Hfr & Hcl). exists w'.
      split; [done|]. split; [congruence|]. split.
      * intros q Hq. destruct (Hfr q) as [-> ->].
        { intros a' b' Hab. apply Hq. by right. }
        apply Hfr1. apply Hq; [by left|done].
      * intros a' b' [[= -> ->]|Hab]%elem_of_cons Hne'; [|by apply Hcl].
        destruct (decide (Exists (fun ab : string * string =>
                    ab.1 ≠ ab.2 ∧ path_out env args a b = path_out env args ab.1 ab.2)
                    pairs)) as [Hex|Hnex].
        -- apply Exists_exists in Hex as ([a' b'] & Hin & Hne2 & ->). by apply Hcl.
        -- destruct (Hfr (path_out env args a b)) as [Hfs Hbuf].
           { intros a' b' Hab Hne2 Heq. apply Hnex, Exists_exists.
             by exists (a', b'). }
           split; [congruence|]. intros c. rewrite Hfs. apply Hnz1.
Qed.

(** X17: lines 33-188.  When the names resolve, the query passes the cap,
    no database is requested (or the database module is there), the batch
    size is positive and the model returns one score row per sentence, a
    run of [predict] returns: standard output is as it was, and for every
    pair of distinct identifiers on the work list the handle on the pair's
    file is closed and no zero-byte file is left at its path. *)
Theorem predict_completes env args w m1 m2 pairs w1 :
  resolve_pairs env args w = (inr (m1, m2, pairs), w1) →
  is_Some (Args.pubtator args) ∨ length pairs ≤ 100 →
  Args.dbs args = [] ∨ indra_installed env = true →
  0 < Args.batch_size args →
  (∀ b, length (scores env b) = length b) →
  ∃ w', predict env args w = (inr tt, w') ∧
        stdout w' = stdout w ∧
        ∀ a b, (a, b) ∈ pairs → a ≠ b →
          buffers w' !! path_out env args a b = None ∧
          no_empty_file (path_out env args a b) w'.
Proof.
  intros Hres Hcap Hdbs Hn Hal.
  pose proof (readonly_resolve_pairs _ _ _ _ _ Hres) as ->.
  unfold predict. rewrite (bind_ok _ _ _ _ _ Hres). cbn [fst snd].
  unfold run_pairs, check_cap.
  assert ((100 <? length pairs) && negb (bool_decide (is_Some (Args.pubtator args)))
          = false) as ->.
  { destruct Hcap as [Hp|Hl].
    - rewrite (bool_decide_eq_true_2 _ Hp). apply andb_false_r.
    - by rewrite (proj2 (Nat.ltb_ge _ _) Hl). }
  rewrite bind_unfold. cbn [mret M_ret ret].
  do 4 (rewrite bind_unfold; unfold log at 1).
  assert (∀ w0, load_dbs env args w0 = (inr (Args.dbs args), w0)) as Hload.
  { intros w0. unfold load_dbs. destruct Hdbs as [->| ->]; [done|].
    by destruct (Args.dbs args). }
  rewrite bind_unfold, Hload.
  edestruct (pairs_loop_completes env args (Args.dbs args) pairs) as (w' & -> & Hout & _ & Hcl);
    [done|done|].
  exists w'. split; [done|]. split; [|done]. by rewrite Hout.
Qed.

End UntouchedFacts.


Lemma missing_database_module_aborts_witness :
  ∃ w', Predict.predict PairExample.env PairExample.db_args PairExample.w0
        = (inl (SystemExit 1), w') ∧
        fs w' = ∅ ∧
        events w' = [EvFromPretrained "leonweber/PEDL";
                     EvDataGetter (list_to_set (["1"] ++ ["2"]));
                     EvTokenizer "leonweber/PEDL"; EvMakedirs "out"].
Proof.
  destruct (missing_database_module_aborts PairExample.env PairExample.db_args
              PairExample.w0 ["1"] ["2"] [("1", "2")] PairExample.w0)
    as (w' & H1 & H2 & _ & H3 & _).
  - vm_compute. reflexivity.
  - right. simpl. lia.
  - discriminate.
  - reflexivity.
  - exists w'. split; [exact H1|]. split; [exact H2|exact H3].
Defined.

(** ** The index from PMIDs to pairs *)

Section IndexFacts.
Import Crawl.

Lemma add_pair_lookup (pv : Provider) (m : gmap string (gset (Entity * Entity)))
    (pair : Entity * Entity) (pmid : string) :
  add_pair pv m pair !! pmid
  = if decide (pmid ∈ get_pmids pv pair.1 ∩ get_pmids pv pair.2)
    then Some ({[ pair ]} ∪ default ∅ (m !! pmid))
    else m !! pmid.
Proof.
  destruct pair as [head tail]. unfold add_pair. cbn [fst snd].
  generalize (get_pmids pv head ∩ get_pmids pv tail). intros X. revert pmid.
  refine (set_fold_ind_L
            (fun (r : gmap string (gset (Entity * Entity))) (Y : gset string) =>
               ∀ pmid : string, r !! pmid
               = if decide (pmid ∈ Y)
                 then Some ({[(head, tail)]} ∪ default ∅ (m !! pmid))
                 else m !! pmid) _ m _ _ X).
  - intros pmid. by rewrite decide_False by set_solver.
  - intros x Y r Hx IH pmid. destruct (decide (pmid = x)) as [->|Hne].
    + rewrite lookup_insert_eq, decide_True by set_solver.
      rewrite IH, decide_False by done. done.
    + rewrite lookup_insert_ne by done. rewrite IH.
      destruct (decide (pmid ∈ Y)).
      * by rewrite decide_True by set_solver.
      * by rewrite decide_False by set_solver.
Qed.

Lemma index_from (pv : Provider) (l : list (Entity * Entity))
    (m : gmap string (gset (Entity * Entity))) (pmid : string) :
  (∀ pair, pair ∈ default ∅ (foldl (add_pair pv) m l !! pmid) ↔
           pair ∈ default ∅ (m !! pmid)
           ∨ (pair ∈ l ∧ pmid ∈ get_pmids pv pair.1 ∩ get_pmids pv pair.2)) ∧
  (is_Some (foldl (add_pair pv) m l !! pmid) ↔
   is_Some (m !! pmid)
   ∨ ∃ pair, pair ∈ l ∧ pmid ∈ get_pmids pv pair.1 ∩ get_pmids pv pair.2).
Proof.
  revert m. induction l as [|p l IH]; intros m; simpl.
  - split.
    + intros pair. rewrite elem_of_nil. naive_solver.
    + split; [by left|]. intros [?|(pair & Hp & _)]; [done|].
      by apply elem_of_nil in Hp.
  - destruct (IH (add_pair pv m p)) as [IH1 IH2]. split.
    + intros pair. rewrite IH1, add_pair_lookup, elem_of_cons.
      destruct (decide (pmid ∈ _)) as [Hin|Hout]; simpl.
      * rewrite elem_of_union, elem_of_singleton. naive_solver.
      * naive_solver.
    + rewrite IH2, add_pair_lookup.
      destruct (decide (pmid ∈ _)) as [Hin|Hout].
      * split; [intros _|intros _; left; by eexists].
        right. exists p. split; [by left|done].
      * split.
        -- intros [?|(pair & Hp & Hs)]; [by left|right].
           exists pair. split; [by right|done].
        -- intros [?|(pair & [->|Hp]%elem_of_cons & Hs)]; [by left|done|right].
           by exists pair.
Qed.

Lemma pmid_index_exact_aux (pv : Provider) (tb : tables) :
  (∀ pmid pair,
     pair ∈ default ∅ (pmid_to_pairs pv tb !! pmid) ↔
     pair ∈ pair_order tb ∧ pmid ∈ get_pmids pv pair.1 ∩ get_pmids pv pair.2) ∧
  (∀ pmid,
     pmid ∈ crawl_order (pmid_to_pairs pv tb) ↔
     ∃ pair, pair ∈ pair_order tb ∧ pmid ∈ get_pmids pv pair.1 ∩ get_pmids pv pair.2).
Proof.
  unfold pmid_to_pairs. split.
  - intros pmid pair. destruct (index_from pv (pair_order tb) ∅ pmid) as [-> _].
    rewrite lookup_empty. simpl. set_solver.
  - intros pmid. rewrite crawl_order_elem.
    destruct (index_from pv (pair_order tb) ∅ pmid) as [_ ->].
    rewrite lookup_empty. split; [|by right].
    intros [[? ?]|?]; done.
Qed.

(** X18: lines 227-234.  The index built before the crawl lists under a
    PMID exactly the pairs of the triples file whose head and tail are both
    mentioned in that article; the PMIDs crawled are exactly those shared
    by the head and the tail of some pair, so that no PMID is crawled for
    an empty set of pairs. *)
Theorem pmid_index_exact (pv : Provider) (tb : tables) :
  let m := pmid_to_pairs pv tb in
  (∀ pmid pair,
     pair ∈ default ∅ (m !! pmid) ↔
     pair ∈ pair_order tb ∧ pmid ∈ get_pmids pv pair.1 ∩ get_pmids pv pair.2) ∧
  (∀ pmid,
     pmid ∈ crawl_order m ↔
     ∃ pair, pair ∈ pair_order tb ∧ pmid ∈ get_pmids pv pair.1 ∩ get_pmids pv pair.2) ∧
  (∀ pmid, pmid ∈ crawl_order m → default ∅ (m !! pmid) ≠ ∅).
Proof.
  intros m. unfold m. destruct (pmid_index_exact_aux pv tb) as [H1 H2].
  split; [done|]. split; [done|].
  intros pmid (pair & Hp & Hs)%H2 Hempty.
  assert (pair ∈ default ∅ (pmid_to_pairs pv tb !! pmid)) as Hin by by apply H1.
  rewrite Hempty in Hin. set_solver.
Qed.

End IndexFacts.

(** ** The order of the crawl *)

Section CrawlOrderFacts.
Import Crawl.

Lemma string_compare_trans (a b c : string) :
  String.compare a b ≠ Gt → String.compare b c ≠ Gt → String.compare a c ≠ Gt.
Proof.
  revert b c. induction a as [|x a IH]; intros [|y b] [|z c]; simpl; try done.
  unfold Ascii.compare.
  destruct (N.compare_spec (Ascii.N_of_ascii x) (Ascii.N_of_ascii y)) as [E1|L1|G1];
    [| |done];
    destruct (N.compare_spec (Ascii.N_of_ascii y) (Ascii.N_of_ascii z)) as [E2|L2|G2];
    try done;
    destruct (N.compare_spec (Ascii.N_of_ascii x) (Ascii.N_of_ascii z)) as [E3|L3|G3];
    try done; try lia.
  apply IH.
Qed.

Lemma string_leb_trans (a b c : string) :
  String.leb a b = true → String.leb b c = true → String.leb a c = true.
Proof.
  unfold String.leb. intros H1 H2.
  pose proof (string_compare_trans a b c) as H.
  destruct (String.compare a b), (String.compare b c), (String.compare a c);
    try done; exfalso; by apply H.
Qed.

Lemma insert_str_sorted x l :
  StronglySorted (fun a b => String.leb a b = true) l →
  StronglySorted (fun a b => String.leb a b = true) (Py.insert_str x l).
Proof.
  induction 1 as [|y l Hs IH Hy]; simpl.
  - by repeat constructor.
  - destruct (String.leb x y) eqn:E.
    + constructor; [by constructor|]. constructor; [done|].
      eapply Forall_impl; [exact Hy|]. intros b Hb. simpl in *.
      by eapply string_leb_trans.
    + constructor; [done|]. rewrite insert_str_perm. constructor; [|done].
      destruct (String.leb_total x y); congruence.
Qed.

Lemma sorted_sorted l : StronglySorted (fun a b => String.leb a b = true) (Py.sorted l).
Proof.
  induction l as [|x l IH]; simpl; [constructor|]. by apply insert_str_sorted.
Qed.

Lemma sorted_unique (l1 l2 : list string) :
  StronglySorted (fun a b => String.leb a b = true) l1 →
  StronglySorted (fun a b => String.leb a b = true) l2 →
  l1 ≡ₚ l2 → l1 = l2.
Proof.
  intros H1 H2 Hp.
  assert (AntiSymm eq (fun a b => String.leb a b = true)) as Hanti.
  { intros a b. apply String.leb_antisym. }
  by eapply (StronglySorted_unique (fun a b => String.leb a b = true)).
Qed.

(** X19: line 237.  The crawl visits each PMID of the index once, in
    ascending order of the PMID strings, compared character by character;
    this order, and with it the position that decides
    which worker takes a PMID, is the same whatever order the interpreter
    iterates the index in. *)
Theorem crawl_order_fixed (m : gmap string (gset (Entity * Entity))) :
  StronglySorted (fun a b => String.leb a b = true) (crawl_order m) ∧
  NoDup (crawl_order m) ∧
  (∀ pmid, pmid ∈ crawl_order m ↔ is_Some (m !! pmid)) ∧
  (∀ l, l ≡ₚ elements (dom m) → Py.sorted l = crawl_order m).
Proof.
  split; [apply sorted_sorted|]. split; [apply crawl_order_NoDup|].
  split; [apply crawl_order_elem|].
  intros l Hl. apply sorted_unique; [apply sorted_sorted|apply sorted_sorted|].
  unfold crawl_order. by rewrite !sorted_perm.
Qed.

End CrawlOrderFacts.

(** ** Worker settings at the edge *)

Section WorkerEdgeFacts.
Import IO Crawl.

Lemma skips_out_of_range args p :
  (0 < TrainArgs.n_worker args)%Z →
  ¬ (0 ≤ TrainArgs.worker_id args < TrainArgs.n_worker args)%Z →
  skips args p = Some true.
Proof.
  intros Hn Hw. rewrite skips_positive by done. f_equal.
  apply negb_true_iff, Z.eqb_neq. intros Heq.
  pose proof (Z.mod_pos_bound (Z.of_nat p) _ Hn). lia.
Qed.

Lemma crawl_loop_idle ord pv n args f fb tb m (l : list (nat * string)) w :
  (∀ p, skips args p = Some true) →
  for_each l (crawl_pmid ord pv n args f fb tb m) w = (inr tt, w).
Proof.
  intros Hs. induction l as [|[p pmid] l IH]; [done|].
  cbn [for_each]. unfold bind. by rewrite crawl_pmid_skipped.
Qed.

(** X20: lines 236-239.  A worker whose id is not one of 0, ..., N-1 is
    given no PMID: its run creates both shard files, retrieves no document,
    writes nothing and returns, leaving two empty files. *)
Theorem worker_out_of_range_idle ord pv n args tb w :
  TrainArgs.out args ≠ TrainArgs.out_blinded args →
  (0 < TrainArgs.n_worker args)%Z →
  ¬ (0 ≤ TrainArgs.worker_id args < TrainArgs.n_worker args)%Z →
  ∃ w', crawl ord pv n args tb w = (inr tt, w') ∧
        fs w' !! shard_path (TrainArgs.out args) (TrainArgs.worker_id args) = Some [] ∧
        fs w' !! shard_path (TrainArgs.out_blinded args) (TrainArgs.worker_id args)
        = Some [] ∧
        events w'
        = events w ++ [EvDataGetter (chemical_universe tb ∪ gene_universe tb)].
Proof.
  intros Hout Hn Hw.
  set (f := shard_path (TrainArgs.out args) (TrainArgs.worker_id args)).
  set (fb := shard_path (TrainArgs.out_blinded args) (TrainArgs.worker_id args)).
  assert (f ≠ fb) as Hne by (intros E; by apply shard_path_inj in E).
  unfold crawl. fold f fb.
  destruct (log_spec (EvDataGetter (chemical_universe tb ∪ gene_universe tb)) w)
    as (w0 & Hlog & _ & _ & _ & Hev0).
  rewrite (bind_ok _ _ _ _ _ Hlog).
  destruct (open_w_spec f w0) as (w1 & Ho1 & _ & _ & Hc1 & Hfr1).
  destruct (open_w_spec fb w1) as (w2 & Ho2 & _ & _ & Hc2 & Hfr2).
  assert (content w2 f = Some []) as Hc1' by by rewrite (frame_content fb f w1 w2).
  pose proof (crawl_loop_idle ord pv n args f fb tb (pmid_to_pairs pv tb)
                (Py.enumerate (crawl_order (pmid_to_pairs pv tb))) w2
                (fun p => skips_out_of_range args p Hn Hw)) as Hloop.
  destruct (with_open_spec fb _ w1 w2 _ w2 _ Ho2 Hloop Hc2) as (w4 & Hin & Hfs4 & Hfr4).
  assert (content w4 f = Some []) as Hf4 by by rewrite (frame_content fb f w2 w4).
  destruct (with_open_spec f _ w0 w1 _ w4 _ Ho1 Hin Hf4) as (w5 & Hrun & Hfs5 & Hfr5).
  exists w5. split; [done|]. split; [done|]. split.
  - destruct Hfr5 as [Hfr5 _]. destruct (Hfr5 fb) as [-> _]; [by intros ->|done].
  - destruct Hfr5 as (_ & -> & _), Hfr4 as (_ & -> & _), Hfr2 as (_ & -> & _),
      Hfr1 as (_ & -> & _). done.
Qed.

Lemma crawl_records_zero ord pv args tb m (l : list (nat * string)) :
  TrainArgs.n_worker args = 0%Z →
  crawl_records ord pv args tb m l
  = ([], match l with [] => None | _ :: _ => Some ZeroDivisionError end).
Proof.
  intros Hz. destruct l as [|[p pmid] l]; [done|].
  cbn [crawl_records]. unfold pmid_records, skips, Py.mod_. by rewrite Hz.
Qed.

(** X21: lines 236-238.  With a worker count of zero the run creates both
    shard files and then stops with ZeroDivisionError at the first PMID,
    leaving the two files empty; it returns normally only when there is no
    PMID to crawl at all. *)
Theorem zero_workers_divide ord pv n args tb w :
  TrainArgs.out args ≠ TrainArgs.out_blinded args →
  TrainArgs.n_worker args = 0%Z →
  ∃ w', crawl ord pv n args tb w
        = (match crawl_order (pmid_to_pairs pv tb) with
           | [] => inr tt
           | _ :: _ => inl ZeroDivisionError
           end, w') ∧
        fs w' !! shard_path (TrainArgs.out args) (TrainArgs.worker_id args) = Some [] ∧
        fs w' !! shard_path (TrainArgs.out_blinded args) (TrainArgs.worker_id args)
        = Some [].
Proof.
  intros Hout Hz.
  destruct (crawl_spec ord pv n args tb w) as (w' & Hrun & Hf & Hfb).
  { intros E. by apply shard_path_inj in E. }
  rewrite crawl_records_zero in Hrun, Hf, Hfb by done. cbn [fst snd] in *.
  exists w'. split; [|done]. rewrite Hrun. unfold Py.enumerate.
  by destruct (crawl_order (pmid_to_pairs pv tb)).
Qed.

End WorkerEdgeFacts.

Lemma worker_out_of_range_idle_witness :
  ∃ w', Crawl.crawl CrawlExample.ascending CrawlExample.pv IO.DEFAULT_BUFFER_SIZE
          (TrainArgs.as_worker CrawlExample.args 2) CrawlExample.tb CrawlExample.w0
        = (inr tt, w') ∧
        fs w' !! "train.2" = Some [] ∧ fs w' !! "train_blinded.2" = Some [] ∧
        events w' = [EvDataGetter (∅ ∪ {[ "1"; "2" ]})].
Proof.
  destruct (worker_out_of_range_idle CrawlExample.ascending CrawlExample.pv
              IO.DEFAULT_BUFFER_SIZE (TrainArgs.as_worker CrawlExample.args 2)
              CrawlExample.tb CrawlExample.w0) as (w' & H1 & H2 & H3 & H4).
  - discriminate.
  - reflexivity.
  - simpl. lia.
  - exists w'. split; [exact H1|]. split; [exact H2|]. split; [exact H3|exact H4].
Defined.

Lemma zero_workers_divide_witness :
  ∃ w', Crawl.crawl CrawlExample.ascending CrawlExample.pv IO.DEFAULT_BUFFER_SIZE
          {| TrainArgs.out := "train"; TrainArgs.out_blinded := "train_blinded";
             TrainArgs.n_worker := 0; TrainArgs.worker_id := 0;
             TrainArgs.triples := "triples.tsv" |}
          CrawlExample.tb CrawlExample.w0
        = (inl ZeroDivisionError, w') ∧
        fs w' !! "train.0" = Some [] ∧ fs w' !! "train_blinded.0" = Some [].
Proof.
  destruct (zero_workers_divide CrawlExample.ascending CrawlExample.pv
              IO.DEFAULT_BUFFER_SIZE
              {| TrainArgs.out := "train"; TrainArgs.out_blinded := "train_blinded";
                 TrainArgs.n_worker := 0; TrainArgs.worker_id := 0;
                 TrainArgs.triples := "triples.tsv" |}
              CrawlExample.tb CrawlExample.w0) as (w' & H1 & H2 & H3).
  - discriminate.
  - reflexivity.
  - exists w'. split; [|split; [exact H2|exact H3]].
    rewrite H1. vm_compute. reflexivity.
Defined.

(** ** What the crawl writes *)

Section CrawlContentFacts.
Import IO Crawl.

Lemma crawl_records_elem ord pv args tb m (l : list (nat * string)) r :
  r ∈ (crawl_records ord pv args tb m l).1 →
  ∃ ip rs, ip ∈ l ∧ pmid_records ord pv args tb m ip = inr rs ∧ r ∈ rs.
Proof.
  induction l as [|ip l IH]; simpl; [by intros ?%elem_of_nil|].
  destruct (pmid_records ord pv args tb m ip) as [e|rs] eqn:E; simpl;
    [by intros ?%elem_of_nil|].
  intros [Hr|Hr]%elem_of_app.
  - exists ip, rs. split; [by left|done].
  - destruct (IH Hr) as (ip' & rs' & Hip & Hrs & Hin).
    exists ip', rs'. split; [by right|done].
Qed.

Lemma crawl_records_complete ord pv args tb m (l : list (nat * string)) ip rs r :
  (crawl_records ord pv args tb m l).2 = None →
  ip ∈ l → pmid_records ord pv args tb m ip = inr rs → r ∈ rs →
  r ∈ (crawl_records ord pv args tb m l).1.
Proof.
  induction l as [|ip' l IH]; simpl; [by intros _ ?%elem_of_nil|].
  destruct (pmid_records ord pv args tb m ip') as [e|rs'] eqn:E; simpl; [done|].
  intros Hnone [->|Hip]%elem_of_cons Hrs Hr; apply elem_of_app.
  - left. rewrite E in Hrs. by inversion Hrs; subst.
  - right. by apply IH.
Qed.

Lemma pmid_records_elem ord pv args tb m ip rs r :
  pmid_records ord pv args tb m ip = inr rs →
  r ∈ rs ↔
  skips args ip.1 = Some false ∧
  ∃ doc docs rest,
    get_documents pv [ip.2] = (doc :: docs) :: rest ∧
    (r.1.1.1, r.1.1.2) ∈ iter_pairs ord (default ∅ (m !! ip.2)) ∧
    r.1.2 = default ∅ (pair_to_relations tb !! (r.1.1.1, r.1.1.2)) ∧
    r.2 ∈ get_sentences_from_document pv r.1.1.1 r.1.1.2 doc.
Proof.
  unfold pmid_records. destruct (skips args ip.1) as [[|]|] eqn:Es; [| |done].
  { intros [= <-]. split; [by intros ?%elem_of_nil|]. by intros [? _]. }
  destruct (get_documents pv [ip.2]) as [|[|doc docs] rest] eqn:Ed; [done| |].
  { intros [= <-]. split; [by intros ?%elem_of_nil|].
    by intros (_ & doc & docs & rest' & ? & _). }
  intros [= <-]. split.
  - intros (pair & Hp & Hr)%list_elem_of_In%in_flat_map.
    apply list_elem_of_In in Hp, Hr. unfold pair_records in Hr.
    apply list_elem_of_fmap in Hr as (s & -> & Hs). cbn [fst snd].
    split; [done|]. exists doc, docs, rest. split; [done|].
    split; [by destruct pair|]. done.
  - intros (_ & doc' & docs' & rest' & [= <- <- <-] & Hp & Hrel & Hs).
    apply list_elem_of_In, in_flat_map. exists (r.1.1.1, r.1.1.2).
    split; [by apply list_elem_of_In|].
    apply list_elem_of_In. unfold pair_records. apply list_elem_of_fmap.
    exists r.2. split; [|done]. cbn [fst snd]. rewrite <- Hrel.
    by destruct r as [[[? ?] ?] ?].
Qed.

(** X22: lines 227-251.  However the crawl ends, both shard files are the
    two renderings of one list of records, and each record stands for a
    sentence that the provider finds for a pair of the triples file in the
    first document of a PMID assigned to this worker in which both
    entities are mentioned, together with the relations the triples file
    gives for that pair.  When the crawl returns, every such sentence has
    its record: nothing assigned to the worker is left out. *)
Theorem crawl_writes_exactly ord pv n args tb w :
  TrainArgs.out args ≠ TrainArgs.out_blinded args →
  (∀ S pair, pair ∈ iter_pairs ord S ↔ pair ∈ S) →
  let m := pmid_to_pairs pv tb in
  let wanted := fun r : record =>
    let '(head, tail, relations, sentence) := r in
    ∃ pmid doc docs rest,
      pmid ∈ assigned args (crawl_order m) ∧
      (head, tail) ∈ pair_order tb ∧
      pmid ∈ get_pmids pv head ∩ get_pmids pv tail ∧
      get_documents pv [pmid] = (doc :: docs) :: rest ∧
      relations = default ∅ (pair_to_relations tb !! (head, tail)) ∧
      sentence ∈ get_sentences_from_document pv head tail doc in
  ∃ r w' recs,
    crawl ord pv n args tb w = (r, w') ∧
    fs w' !! shard_path (TrainArgs.out args) (TrainArgs.worker_id args)
    = Some (raw_line ord <$> recs) ∧
    fs w' !! shard_path (TrainArgs.out_blinded args) (TrainArgs.worker_id args)
    = Some (blinded_line ord <$> recs) ∧
    (∀ rec, rec ∈ recs → wanted rec) ∧
    (r = inr tt → ∀ rec, wanted rec → rec ∈ recs).
Proof.
  intros Hout Hord m wanted.
  destruct (crawl_spec ord pv n args tb w) as (w' & Hrun & Hf & Hfb).
  { intros E. by apply shard_path_inj in E. }
  fold m in Hrun, Hf, Hfb.
  set (recs := crawl_records ord pv args tb m (Py.enumerate (crawl_order m))) in *.
  destruct (pmid_index_exact_aux pv tb) as [Hidx _]. fold m in Hidx.
  exists (outcome recs.2), w', recs.1. do 3 (split; [done|]). split.
  - intros [[[head tail] rels] s] Hrec.
    apply crawl_records_elem in Hrec as ([p pmid] & rs & Hip & Hrs & Hin).
    apply (pmid_records_elem _ _ _ _ _ _ _ _ Hrs) in Hin
      as (Hsk & doc & docs & rest & Hd & Hp & Hrel & Hs).
    cbn [fst snd] in *. apply Hord, Hidx in Hp as [Hp Hsh]. cbn [fst snd] in Hsh.
    exists pmid, doc, docs, rest. split; [|done].
    apply elem_of_assigned. exists p. split; [|done].
    apply enumerate_from_lookup in Hip as [_ Hip]. by rewrite Nat.sub_0_r in Hip.
  - intros Hok [[[head tail] rels] s] (pmid & doc & docs & rest & Has & Hp & Hsh & Hd & Hrel & Hs).
    apply elem_of_assigned in Has as (p & Hpos & Hsk).
    assert (recs.2 = None) as Hnone by (by destruct recs.2).
    assert (∃ rs, pmid_records ord pv args tb m (p, pmid) = inr rs) as [rs Hrs].
    { unfold pmid_records. cbn [fst snd]. rewrite Hsk, Hd. by eexists. }
    eapply (crawl_records_complete _ _ _ _ _ _ (p, pmid)); [done| |exact Hrs|].
    + apply enumerate_from_lookup. split; [lia|]. by rewrite Nat.sub_0_r.
    + apply (pmid_records_elem _ _ _ _ _ _ _ _ Hrs). cbn [fst snd].
      split; [done|]. exists doc, docs, rest. split; [done|]. split; [|done].
      apply Hord, Hidx. done.
Qed.

End CrawlContentFacts.

(** ** Loading the triples file *)

Section TriplesFacts.
Import IO Crawl Triples.


(** [str.split] never returns an empty list: the guard of line 201 never
    skips a line. *)
Lemma split_nonempty sep s : Py.split sep s ≠ [].
Proof.
  destruct s as [|a s]; simpl; [done|].
  destruct (Ascii.eqb a sep); [done|]. by destruct (Py.split sep s).
Qed.








End TriplesFacts.

Lemma crawl_writes_exactly_witness :
  ∃ r w' recs,
    Crawl.crawl CrawlExample.ascending CrawlExample.pv IO.DEFAULT_BUFFER_SIZE
      CrawlExample.args CrawlExample.tb CrawlExample.w0 = (r, w') ∧
    fs w' !! "train.1" = Some (Crawl.raw_line CrawlExample.ascending <$> recs) ∧
    fs w' !! "train_blinded.1"
    = Some (Crawl.blinded_line CrawlExample.ascending <$> recs).
Proof.
  destruct (crawl_writes_exactly CrawlExample.ascending CrawlExample.pv
              IO.DEFAULT_BUFFER_SIZE CrawlExample.args CrawlExample.tb CrawlExample.w0)
    as (r & w' & recs & H1 & H2 & H3 & _).
  - discriminate.
  - intros S pair. apply elem_of_elements.
  - exists r, w', recs. split; [exact H1|]. split; [exact H2|exact H3].
Defined.


(** ** Batched scoring at the edge *)

Section BatchedEdgeFacts.
Import Bert.
Variable forward : list (list nat) → list (list nat) → list Q * meta.

Lemma chunks_fuel_single {A} (l : list A) n fuel :
  l ≠ [] → length l ≤ n → 0 < fuel → chunks_fuel fuel l n = [l].
Proof.
  intros Hl Hn Hf. destruct fuel as [|fuel]; [lia|]. destruct l as [|x l]; [done|].
  cbn [chunks_fuel]. rewrite take_ge, drop_ge by done. by destruct fuel.
Qed.

Lemma batch_lookup_fails (mask : list (list nat)) (batches : list (list nat)) k
    (f : list nat → option (list (list nat))) :
  mask !! k = None → k ∈ concat batches →
  mapM (fun indices_batch =>
          input_ids_batch ← f indices_batch;
          attention_mask_batch ← index_select mask indices_batch;
          Some (forward input_ids_batch attention_mask_batch)) batches = None.
Proof.
  intros Hk (b & Hb & Hkb)%list_elem_of_In%in_concat.
  apply list_elem_of_In in Hb, Hkb. apply mapM_None_2, Exists_exists.
  exists b. split; [done|]. destruct (f b); [|done]. simpl.
  assert (index_select mask b = None) as ->; [|done].
  apply mapM_None_2, Exists_exists. by exists k.
Qed.

(** X25: lines 135-156.  With a positive batch size the batched forward
    pass fails on an empty input (there is nothing to concatenate) and on
    an attention mask with fewer rows than the input (a batch indexes past
    its end), in both cases whatever the model; without a batch size the
    same inputs are handed to the model as they are. *)
Theorem batched_forward_failures (ids mask : list (list nat)) (n : nat) :
  0 < n → ids = [] ∨ length mask < length ids →
  forward_batched forward ids mask n = None ∧
  forward_batched forward ids mask 0 = Some (forward ids mask).
Proof.
  intros Hn Hcase. split; [|done].
  unfold forward_batched. destruct (Nat.eqb_spec n 0); [lia|].
  destruct Hcase as [->|Hlt].
  - unfold chunks. destruct (Nat.eqb_spec n 0); [lia|]. done.
  - destruct (chunks_positive (seq 0 (length ids)) n Hn) as (cs & -> & Hcat & _).
    cbn [mbind option_bind].
    rewrite (batch_lookup_fails mask cs (length mask)); [done| |].
    + by apply lookup_ge_None_2.
    + rewrite Hcat. apply elem_of_seq. lia.
Qed.

(** X26: lines 135-156.  When one batch holds the whole input, the batched
    forward pass returns what the plain forward pass returns on the
    input. *)
Theorem single_batch_is_forward (ids mask : list (list nat)) (n : nat) :
  ids ≠ [] → length ids ≤ n → length mask = length ids →
  forward_batched forward ids mask n = Some (forward ids mask).
Proof.
  intros Hids Hn Hm. unfold forward_batched, chunks.
  assert (0 < length ids) as Hpos by (destruct ids; [done|simpl; lia]).
  destruct (Nat.eqb_spec n 0); [lia|]. cbn [mbind option_bind].
  rewrite length_seq.
  rewrite (batched_outs forward n (length ids) ids mask 0 (length ids)) by (done || lia).
  rewrite !drop_0. cbn [mbind option_bind].
  rewrite (chunks_fuel_single ids) by (done || lia).
  rewrite (chunks_fuel_single mask) by ((intros ->; simpl in *; lia) || lia).
  cbn [zip_with fmap list_fmap Torch.cat concat mbind option_bind].
  rewrite !app_nil_r. by destruct (forward ids mask) as [l [a b]].
Qed.

End BatchedEdgeFacts.

Lemma batched_forward_failures_witness :
  Bert.forward_batched (fun ids _ => ([], {| Bert.alphas := []; Bert.alphas_by_rel := [] |}))
    [[101; 7; 102]; [101; 8; 102]] [[1; 1; 1]] 1 = None ∧
  Bert.forward_batched (fun ids _ => ([], {| Bert.alphas := []; Bert.alphas_by_rel := [] |}))
    [[101; 7; 102]; [101; 8; 102]] [[1; 1; 1]] 0
  = Some ([], {| Bert.alphas := []; Bert.alphas_by_rel := [] |}).
Proof.
  apply (batched_forward_failures
           (fun ids _ => ([], {| Bert.alphas := []; Bert.alphas_by_rel := [] |}))
           [[101; 7; 102]; [101; 8; 102]] [[1; 1; 1]] 1).
  - lia.
  - right. simpl. lia.
Defined.

Lemma single_batch_is_forward_witness :
  Bert.forward_batched
    (fun ids _ => ([], {| Bert.alphas := (fun _ => 1%Q) <$> ids; Bert.alphas_by_rel := [] |}))
    [[101; 7; 102]; [101; 8; 102]] [[1; 1; 1]; [1; 1; 1]] 50
  = Some ([], {| Bert.alphas := [1%Q; 1%Q]; Bert.alphas_by_rel := [] |}).
Proof.
  rewrite (single_batch_is_forward
             (fun ids _ => ([], {| Bert.alphas := (fun _ => 1%Q) <$> ids;
                                   Bert.alphas_by_rel := [] |}))
             [[101; 7; 102]; [101; 8; 102]] [[1; 1; 1]; [1; 1; 1]] 50).
  - reflexivity.
  - discriminate.
  - simpl. lia.
  - reflexivity.
Defined.

(** ** The entity positions of the forward pass *)

Section EntityIndexFacts.
Import EntityIndex.

Lemma argmax_from_one bi i (l : list nat) :
  Forall (fun x => x ≤ 1) l → argmax_from bi 1 i l = bi.
Proof.
  intros Hl. revert i. induction Hl as [|x l Hx _ IH]; intros i; [done|]. simpl.
  destruct (Nat.ltb_spec 1 x); [lia|]. apply IH.
Qed.

Lemma mask_bits e row : Forall (fun x => x ≤ 1) (mask e row).
Proof.
  unfold mask. apply Forall_fmap, Forall_forall. intros t _. simpl.
  destruct (t =? e); lia.
Qed.

Lemma argmax_from_zero bi i e row :
  ((e ∉ row) ∧ argmax_from bi 0 i (mask e row) = bi)
  ∨ (∃ k, argmax_from bi 0 i (mask e row) = i + k ∧ row !! k = Some e
          ∧ ∀ j, j < k → row !! j ≠ Some e).
Proof.
  revert i. induction row as [|t row IH]; intros i.
  - left. split; [by intros ?%elem_of_nil|done].
  - cbn [mask fmap list_fmap argmax_from]. destruct (Nat.eqb_spec t e) as [->|Hne].
    + right. exists 0. cbn [Nat.ltb Nat.leb].
      fold (mask e row).
      rewrite argmax_from_one by apply mask_bits.
      split; [lia|]. split; [done|]. intros j Hj. lia.
    + cbn [Nat.ltb Nat.leb]. fold (mask e row).
      destruct (IH (S i)) as [[Hnot ->]|(k & -> & Hk & Hfirst)].
      * left. split; [|done]. intros [?|?]%elem_of_cons; congruence.
      * right. exists (S k). split; [lia|]. split; [done|].
        intros [|j] Hj; simpl; [congruence|]. apply Hfirst. lia.
Qed.

Lemma mask_sum_zero e row : sum_list (mask e row) = 0 ↔ e ∉ row.
Proof.
  induction row as [|t row IH]; simpl.
  - split; [by intros _ ?%elem_of_nil|done].
  - fold (mask e row).
    rewrite elem_of_cons. destruct (Nat.eqb_spec t e) as [->|Hne].
    + split; [lia|]. intros H. destruct H. by left.
    + simpl. rewrite IH. split; [intros H [?|?]; [congruence|done]|]. intros H ?. apply H. by right.
Qed.

(** X27: lines 91-96 of the forward pass.  For a row of token ids that is
    not empty, the position used for an entity is inside the row; it is
    the first position holding the entity marker when the row has one, and
    position 0 when it has none.  This is what argmax alone returns: the
    assignment of line 95 (and 96) never changes a position. *)
Theorem entity_position (e_id : nat) (row : list nat) :
  row ≠ [] →
  ∃ k, entity_index e_id row = Some k ∧ k < length row ∧
       argmax (mask e_id row) = Some k ∧
       ((row !! k = Some e_id ∧ ∀ j, j < k → row !! j ≠ Some e_id)
        ∨ ((e_id ∉ row) ∧ k = 0)).
Proof.
  intros Hrow. destruct row as [|t row]; [done|].
  unfold entity_index. pose proof (mask_sum_zero e_id (t :: row)) as Hsum.
  cbn [mask fmap list_fmap argmax mbind option_bind] in *.
  fold (mask e_id row) in *.
  destruct (Nat.eqb_spec t e_id) as [->|Hne].
  - rewrite argmax_from_one by apply mask_bits.
    exists 0. split; [by destruct (_ =? 0)|]. split; [simpl; lia|]. split; [done|].
    left. split; [done|]. intros j Hj. lia.
  - destruct (argmax_from_zero 0 1 e_id row) as [[Hnot ->]|(k & -> & Hk & Hfirst)].
    + exists 0. split; [by destruct (_ =? 0)|]. split; [simpl; lia|]. split; [done|].
      right. split; [|done]. intros [?|?]%elem_of_cons; congruence.
    + exists (S k). destruct (Nat.eqb_spec (sum_list (0 :: mask e_id row)) 0) as [Hz|Hnz].
      { apply Hsum in Hz. destruct Hz. right. by eapply list_elem_of_lookup_2. }
      split; [done|]. split; [|split; [done|]].
      * apply lookup_lt_Some in Hk. simpl. lia.
      * left. split; [done|]. intros [|j] Hj; simpl; [congruence|]. apply Hfirst. lia.
Qed.

End EntityIndexFacts.

Lemma entity_position_witness :
  ∃ k, EntityIndex.entity_index 9 [101; 2023; 9; 7; 9; 102] = Some k ∧ k = 2.
Proof.
  destruct (entity_position 9 [101; 2023; 9; 7; 9; 102])
    as (k & H1 & _ & _ & _); [discriminate|].
  exists k. split; [exact H1|]. vm_compute in H1. by inversion H1.
Defined.

Lemma predict_completes_witness :
  ∃ w', Predict.predict PairExample.env PairExample.args PairExample.w0 = (inr tt, w') ∧
        stdout w' = [] ∧ buffers w' !! "out/1-2.txt" = None.
Proof.
  destruct (predict_completes PairExample.env PairExample.args PairExample.w0
              ["1"] ["2"] [("1", "2")] PairExample.w0) as (w' & H1 & H2 & H3).
  - vm_compute. reflexivity.
  - right. simpl. lia.
  - by left.
  - vm_compute. lia.
  - intros b. apply length_fmap.
  - exists w'. split; [exact H1|]. split; [exact H2|].
    apply (H3 "1" "2"); [by left|discriminate].
Defined.

(** ** A complete run of the corpus builder *)

Section BuildFacts.
Import IO Crawl Triples.



End BuildFacts.

